(** * SilentCommander: command interpretation and platform dispatch

    A shallow embedding of [src/silent_commander.py] and the properties of
    its specification.

    Python strings are sequences of Unicode code points, and the program
    is sensitive to that: [re.split] looks at word boundaries, [str.lower]
    may change the length of a string, and [urllib.parse.quote] encodes to
    UTF-8 and refuses lone surrogates.  A [str] is therefore a list of
    code points ([N]), not a list of bytes. *)

From Stdlib Require Import NArith List String Ascii Bool Lia Arith.
Import ListNotations.
Local Open Scope N_scope.
Local Open Scope list_scope.

(** ** Strings *)

Definition codepoint := N.
Definition str := list codepoint.

(** A literal of the source, as its code points. *)
Definition cps (s : string) : str :=
  List.map N_of_ascii (list_ascii_of_string s).

Fixpoint str_eqb (a b : str) : bool :=
  match a, b with
  | [], [] => true
  | x :: a', y :: b' => (x =? y) && str_eqb a' b'
  | _, _ => false
  end.

(** [s.startswith(p)] *)
Fixpoint startswith (s p : str) : bool :=
  match p with
  | [] => true
  | a :: p' =>
      match s with
      | [] => false
      | b :: s' => (b =? a) && startswith s' p'
      end
  end.

(** [sub in s] *)
Fixpoint contains (s sub : str) : bool :=
  startswith s sub ||
  match s with
  | [] => false
  | _ :: s' => contains s' sub
  end.

(** [any(w in target for w in ws)] *)
Definition any_in (target : str) (ws : list str) : bool :=
  existsb (contains target) ws.

(** The remainder of [s] after the literal prefix [p], when [s] has it. *)
Fixpoint strip_lit (p s : str) : option str :=
  match p with
  | [] => Some s
  | a :: p' =>
      match s with
      | [] => None
      | b :: s' => if b =? a then strip_lit p' s' else None
      end
  end.

(** ** Characters

    White space is what [str.isspace], [str.strip] and the regular
    expression class [\s] agree on for [str] patterns: the 29 code
    points below. *)
Definition is_space (c : codepoint) : bool :=
  ((9 <=? c) && (c <=? 13)) || ((28 <=? c) && (c <=? 32)) ||
  (c =? 133) || (c =? 160) || (c =? 5760) ||
  ((8192 <=? c) && (c <=? 8202)) || (c =? 8232) || (c =? 8233) ||
  (c =? 8239) || (c =? 8287) || (c =? 12288).

Fixpoint lstrip (s : str) : str :=
  match s with
  | [] => []
  | c :: s' => if is_space c then lstrip s' else s
  end.

Definition rstrip (s : str) : str := rev (lstrip (rev s)).

(** [s.strip()] *)
Definition strip (s : str) : str := rstrip (lstrip s).

(** The rest of the Unicode character database the program depends on is
    large and changes with the version of the runtime, so it is an
    interface: [isalnum] is [str.isalnum] on one code point (with [_] it
    gives the class [\w]), and [lower] is [str.lower], which leaves the
    empty string empty. *)
Record UnicodeDB : Type := {
  isalnum : codepoint -> bool;
  lower : str -> str;
  lower_nil : lower [] = []
}.

(** ** The regular expressions of the source *)

Section Regex.
Variable U : UnicodeDB.

(** [\w] *)
Definition is_word (c : codepoint) : bool := isalnum U c || (c =? 95).

Definition word_first (s : str) : bool :=
  match s with
  | [] => false
  | c :: _ => is_word c
  end.

(** Whether the last character of [s] is a word character; [prev] when
    [s] is empty. *)
Fixpoint word_last (prev : bool) (s : str) : bool :=
  match s with
  | [] => prev
  | c :: s' => word_last (is_word c) s'
  end.

(** [\b] between a left context whose last character has word class
    [prev] ([false] at the start of the string) and the rest [s]. *)
Definition boundary (prev : bool) (s : str) : bool :=
  xorb prev (word_first s).

(** One letter of the pattern under [re.IGNORECASE].  The pattern only
    has the letters a, n, d, t, h, e, and the code points that match one
    of those are the letter and its ASCII capital. *)
Definition ci_eq (c p : codepoint) : bool := (c =? p) || (c =? p - 32).

Fixpoint strip_lit_ci (p s : str) : option (str * str) :=
  match p with
  | [] => Some ([], s)
  | a :: p' =>
      match s with
      | [] => None
      | b :: s' =>
          if ci_eq b a then
            match strip_lit_ci p' s' with
            | Some (m, r) => Some (b :: m, r)
            | None => None
            end
          else None
      end
  end.

(** One alternative of [\b(?:and|then)\b] at the current position: the
    matched text and the rest. *)
Definition match_word (w : str) (prev : bool) (s : str)
  : option (str * str) :=
  if boundary prev s then
    match strip_lit_ci w s with
    | Some (m, r) =>
        if boundary (word_last prev m) r then Some (m, r) else None
    | None => None
    end
  else None.

(** [\b(?:and|then)\b] at the current position; the alternatives are
    tried in the order of the pattern. *)
Definition match_connective (prev : bool) (s : str)
  : option (str * str) :=
  match match_word (cps "and") prev s with
  | Some r => Some r
  | None => match_word (cps "then") prev s
  end.

(** The scan of [re.split]: search for the next match from the current
    position; what lies before it is a part, and the search resumes
    behind it.  The result is the first part and then each separator
    with the part that follows it.  [n] bounds the number of steps. *)
Fixpoint split_scan (n : nat) (prev : bool) (s : str)
  : str * list (str * str) :=
  match n with
  | O => (s, [])
  | S n' =>
      match s with
      | [] => ([], [])
      | c :: s' =>
          match match_connective prev s with
          | Some (m, r) =>
              let (p, rest) := split_scan n' (word_last prev m) r in
              ([], (m, p) :: rest)
          | None =>
              let (p, rest) := split_scan n' (is_word c) s' in
              (c :: p, rest)
          end
      end
  end.

Definition scan (s : str) : str * list (str * str) :=
  split_scan (S (List.length s)) false s.

(** [re.split(r'\b(?:and|then)\b', s, flags=re.IGNORECASE)]: the
    pattern has no group, so only the parts are returned. *)
Definition re_split (s : str) : list str :=
  fst (scan s) :: List.map snd (snd (scan s)).

End Regex.

(** [\s+]: all the white space at the current position, at least one. *)
Definition spaces1 (s : str) : option str :=
  match s with
  | [] => None
  | c :: s' => if is_space c then Some (lstrip s') else None
  end.

(** [re.sub(r'^(?:search|find)(?:\s+for)?\s+', '', s)].  The pattern is
    anchored, so at most one match is replaced.  The optional group is
    tried first; when the final [\s+] finds nothing behind it the matcher
    backtracks and leaves the group out. *)
Definition sub_search_prefix (s : str) : str :=
  let verb :=
    match strip_lit (cps "search") s with
    | Some r => Some r
    | None => strip_lit (cps "find") s
    end in
  match verb with
  | None => s
  | Some r =>
      match spaces1 r with
      | None => s
      | Some r1 =>
          match strip_lit (cps "for") r1 with
          | None => r1
          | Some r2 =>
              match spaces1 r2 with
              | Some r3 => r3
              | None => r1
              end
          end
      end
  end.

(** [re.sub(r'^open\s+', '', s)] *)
Definition sub_open_prefix (s : str) : str :=
  match strip_lit (cps "open") s with
  | None => s
  | Some r =>
      match spaces1 r with
      | None => s
      | Some r1 => r1
      end
  end.

(** ** [urllib.parse.quote]

    [quote(query)] encodes the string to UTF-8 with [errors='strict'] and
    percent-encodes every byte that is not a letter, a digit or one of
    [_.-~/].  The strict encoder raises [UnicodeEncodeError] on a
    surrogate code point (U+D800 to U+DFFF), which a [str] may hold: the
    command line arguments of the script are decoded with
    [surrogateescape]. *)

Definition is_surrogate (c : codepoint) : bool :=
  (55296 <=? c) && (c <=? 57343).

Definition utf8_char (c : codepoint) : option (list N) :=
  if c <? 128 then Some [c]
  else if c <? 2048 then Some [192 + c / 64; 128 + c mod 64]
  else if is_surrogate c then None
  else if c <? 65536 then
    Some [224 + c / 4096; 128 + (c / 64) mod 64; 128 + c mod 64]
  else
    Some [240 + c / 262144; 128 + (c / 4096) mod 64;
          128 + (c / 64) mod 64; 128 + c mod 64].

Fixpoint utf8_encode (s : str) : option (list N) :=
  match s with
  | [] => Some []
  | c :: s' =>
      match utf8_char c, utf8_encode s' with
      | Some b, Some bs => Some (b ++ bs)
      | _, _ => None
      end
  end.

Definition is_safe_byte (b : N) : bool :=
  ((48 <=? b) && (b <=? 57)) || ((65 <=? b) && (b <=? 90)) ||
  ((97 <=? b) && (b <=? 122)) ||
  (b =? 95) || (b =? 46) || (b =? 45) || (b =? 126) || (b =? 47).

Definition hex_digit (d : N) : codepoint :=
  if d <? 10 then 48 + d else 55 + d.

Definition quote_byte (b : N) : str :=
  if is_safe_byte b then [b]
  else [37; hex_digit (b / 16); hex_digit (b mod 16)].

(** [None] stands for the [UnicodeEncodeError] of the encoder. *)
Definition quote (s : str) : option str :=
  match utf8_encode s with
  | Some bs => Some (flat_map quote_byte bs)
  | None => None
  end.

(** ** External calls and exceptions

    The program acts on the world only through [webbrowser.open_new_tab],
    [os.startfile] and [subprocess.run].  An execution is observed as the
    sequence of these calls, in order, and as its outcome: it returns or
    it raises. *)

Inductive call : Type :=
| open_new_tab (url : str)
| startfile (uri : str)
| subprocess_run (argv : list str) (shell : bool).

(** Exceptions, all of them subclasses of [Exception]: the error of the
    UTF-8 encoder, and whatever an external call raises (a browser that
    cannot be opened, [FileNotFoundError] for a missing binary, ...). *)
Inductive exn : Type :=
| UnicodeEncodeError
| ExternalError.

Inductive result (A : Type) : Type :=
| Ret (a : A)
| Raise (e : exn).
Arguments Ret {A} a.
Arguments Raise {A} e.

(** The host: what [platform.system().lower()] returned when the
    commander was built, whether [os] has [startfile], and which external
    calls raise, given the calls made before. *)
Record Host : Type := {
  os_type : str;
  has_startfile : bool;
  fails : list call -> call -> bool
}.

(** A command takes the calls made so far and gives the calls made when
    it ends, with its outcome. *)
Definition Cmd (A : Type) : Type := list call -> list call * result A.

Definition ret {A} (a : A) : Cmd A := fun tr => (tr, Ret a).

Definition bind {A B} (m : Cmd A) (k : A -> Cmd B) : Cmd B :=
  fun tr =>
    match m tr with
    | (tr', Ret a) => k a tr'
    | (tr', Raise e) => (tr', Raise e)
    end.

Notation "m ;; k" := (bind m (fun _ => k))
  (at level 61, right associativity).

(** [try: m except Exception: pass] *)
Definition try_pass (m : Cmd unit) : Cmd unit :=
  fun tr =>
    match m tr with
    | (tr', Ret a) => (tr', Ret a)
    | (tr', Raise _) => (tr', Ret tt)
    end.

(** [for x in l: body(x)] *)
Fixpoint for_each {A} (l : list A) (body : A -> Cmd unit) : Cmd unit :=
  match l with
  | [] => ret tt
  | x :: l' => body x ;; for_each l' body
  end.

(** ** The commander *)

(** [self.site_whitelist]: a dict literal, iterated in insertion order. *)
Definition site_whitelist : list (str * str) :=
  [ (cps "youtube", cps "https://www.youtube.com");
    (cps "gmail", cps "https://mail.google.com");
    (cps "google", cps "https://www.google.com");
    (cps "reddit", cps "https://www.reddit.com");
    (cps "github", cps "https://github.com");
    (cps "amazon", cps "https://www.amazon.com");
    (cps "netflix", cps "https://www.netflix.com");
    (cps "twitter", cps "https://twitter.com");
    (cps "x", cps "https://x.com");
    (cps "facebook", cps "https://www.facebook.com");
    (cps "linkedin", cps "https://www.linkedin.com");
    (cps "wikipedia", cps "https://www.wikipedia.org");
    (cps "weather", cps "https://weather.com");
    (cps "news", cps "https://news.google.com") ].

(** The URI chosen by the [if]/[elif] chain of [_win_settings]. *)
Definition win_uri (target : str) : str :=
  if any_in target [cps "sound"; cps "audio"; cps "volume"]
  then cps "ms-settings:sound"
  else if any_in target [cps "display"; cps "screen"; cps "monitor"]
  then cps "ms-settings:display"
  else if any_in target [cps "privacy"; cps "security"]
  then cps "ms-settings:privacy"
  else if any_in target [cps "bluetooth"; cps "device"]
  then cps "ms-settings:bluetooth"
  else if any_in target [cps "wifi"; cps "network"; cps "internet"]
  then cps "ms-settings:network"
  else if any_in target [cps "power"; cps "battery"; cps "sleep"]
  then cps "ms-settings:powersleep"
  else cps "ms-settings:".

(** The URI chosen by [_mac_settings]. *)
Definition mac_uri (target : str) : str :=
  cps "x-apple.systempreferences:" ++
  (if any_in target [cps "sound"; cps "audio"; cps "volume"]
   then cps "com.apple.preference.sound"
   else if any_in target [cps "display"; cps "screen"; cps "monitor"]
   then cps "com.apple.preference.displays"
   else if any_in target [cps "privacy"; cps "security"]
   then cps "com.apple.preference.security?Privacy"
   else if any_in target [cps "network"; cps "wifi"; cps "internet"]
   then cps "com.apple.preference.network"
   else if any_in target [cps "update"]
   then cps "com.apple.preferences.softwareupdate"
   else []).

(** The command line built by [_linux_settings]. *)
Definition linux_cmd (target : str) : list str :=
  cps "gnome-control-center" ::
  (if any_in target [cps "sound"; cps "audio"; cps "volume"]
   then [cps "sound"]
   else if any_in target [cps "display"; cps "screen"; cps "monitor"]
   then [cps "display"]
   else if any_in target [cps "network"; cps "wifi"]
   then [cps "network"]
   else if any_in target [cps "bluetooth"]
   then [cps "bluetooth"]
   else if any_in target [cps "power"]
   then [cps "power"]
   else []).

Section Commander.
Variable U : UnicodeDB.
Variable host : Host.

(** An external call: it is made, and it may raise. *)
Definition external (c : call) : Cmd unit :=
  fun tr =>
    (tr ++ [c], if fails host tr c then Raise ExternalError else Ret tt).

Definition _open_browser (url : str) : Cmd unit :=
  try_pass (external (open_new_tab url)).

Definition _win_settings (target : str) : Cmd unit :=
  let uri := win_uri target in
  if has_startfile host then external (startfile uri)
  else external (subprocess_run [cps "start"; uri] true).

Definition _mac_settings (target : str) : Cmd unit :=
  external (subprocess_run [cps "open"; mac_uri target] false).

Definition _linux_settings (target : str) : Cmd unit :=
  external (subprocess_run (linux_cmd target) false).

Definition _open_system_settings (target : str) : Cmd unit :=
  try_pass
    (if contains (os_type host) (cps "windows") then _win_settings target
     else if contains (os_type host) (cps "darwin") then _mac_settings target
     else if contains (os_type host) (cps "linux") then _linux_settings target
     else ret tt).

Definition _handle_search (command : str) : Cmd unit :=
  let query := strip (sub_search_prefix command) in
  match query with
  | [] => ret tt
  | _ =>
      match quote query with
      | None => fun tr => (tr, Raise UnicodeEncodeError)
      | Some q => _open_browser (cps "https://www.google.com/search?q=" ++ q)
      end
  end.

(** [for key, url in self.site_whitelist.items(): ...]; the [return]
    in the body ends the loop at the first key found in the target. *)
Fixpoint open_first_site (sites : list (str * str)) (target : str)
  : Cmd unit :=
  match sites with
  | [] => ret tt
  | (key, url) :: sites' =>
      if contains target key then _open_browser url
      else open_first_site sites' target
  end.

Definition _handle_open (command : str) : Cmd unit :=
  let target := strip (sub_open_prefix command) in
  if contains target (cps "setting") || contains target (cps "control panel")
  then _open_system_settings target
  else open_first_site site_whitelist target.

Definition _dispatch (command : str) : Cmd unit :=
  if startswith command (cps "search") || startswith command (cps "find")
  then _handle_search command
  else if startswith command (cps "open")
  then _handle_open command
  else ret tt.

Definition execute (transcription : str) : Cmd unit :=
  match transcription with
  | [] => ret tt
  | _ =>
      for_each (re_split U transcription) (fun part =>
        let clean_cmd := lower U (strip part) in
        match clean_cmd with
        | [] => ret tt
        | _ => _dispatch clean_cmd
        end)
  end.

End Commander.

(** ** Segments and intents

    The source decides and acts in one pass and has no type of intents.
    The definitions below name what [execute] and [_dispatch] compute on
    the way, so that the specification's vocabulary can be used:
    [execute_segments] and [dispatch_classify] relate them to the code. *)

Definition nonempty (s : str) : bool :=
  match s with
  | [] => false
  | _ => true
  end.

(** The segments of a transcription: the values of [clean_cmd] that reach
    [_dispatch], in the order of the loop. *)
Definition segments (U : UnicodeDB) (transcription : str) : list str :=
  match transcription with
  | [] => []
  | _ =>
      filter nonempty
        (List.map (fun part => lower U (strip part))
                  (re_split U transcription))
  end.

Inductive Intent : Type :=
| Search (query : str)
| OpenSite (url : str)
| OpenSettings (target : str)
| Unrecognized.

Fixpoint first_site (sites : list (str * str)) (target : str)
  : option str :=
  match sites with
  | [] => None
  | (key, url) :: sites' =>
      if contains target key then Some url else first_site sites' target
  end.

(** The branch of [_dispatch], [_handle_search] and [_handle_open] that a
    command takes, with the value the branch works on. *)
Definition classify (command : str) : Intent :=
  if startswith command (cps "search") || startswith command (cps "find")
  then Search (strip (sub_search_prefix command))
  else if startswith command (cps "open")
  then
    let target := strip (sub_open_prefix command) in
    if contains target (cps "setting") || contains target (cps "control panel")
    then OpenSettings target
    else
      match first_site site_whitelist target with
      | Some url => OpenSite url
      | None => Unrecognized
      end
  else Unrecognized.

(** What the code does in that branch. *)
Definition perform (host : Host) (i : Intent) : Cmd unit :=
  match i with
  | Search [] => ret tt
  | Search query =>
      match quote query with
      | None => fun tr => (tr, Raise UnicodeEncodeError)
      | Some q =>
          _open_browser host (cps "https://www.google.com/search?q=" ++ q)
      end
  | OpenSite url => _open_browser host url
  | OpenSettings target => _open_system_settings host target
  | Unrecognized => ret tt
  end.

(** First match over a list of rules (keywords, result), as the
    specification words the resolution of a settings target. *)
Fixpoint first_rule (rules : list (list str * str)) (default : str)
    (target : str) : str :=
  match rules with
  | [] => default
  | (keywords, uri) :: rules' =>
      if any_in target keywords then uri
      else first_rule rules' default target
  end.

Definition win_rules : list (list str * str) :=
  [ ([cps "sound"; cps "audio"; cps "volume"], cps "ms-settings:sound");
    ([cps "display"; cps "screen"; cps "monitor"], cps "ms-settings:display");
    ([cps "privacy"; cps "security"], cps "ms-settings:privacy");
    ([cps "bluetooth"; cps "device"], cps "ms-settings:bluetooth");
    ([cps "wifi"; cps "network"; cps "internet"], cps "ms-settings:network");
    ([cps "power"; cps "battery"; cps "sleep"], cps "ms-settings:powersleep") ].

(** ** The character tables of CPython, in part

    [py_ucd] agrees with [str.isalnum] and [str.lower] of CPython on the
    code points of [in_tables]: Basic Latin, Latin-1 Supplement and Latin
    Extended-A (U+0000 to U+017F), the combining diacritical marks
    (U+0300 to U+036F) and the surrogates (U+D800 to U+DFFF).  On these
    [str.lower] works character by character.  Every other code point is
    left as a caseless symbol, which is not claimed to be what CPython
    does: [py_ucd] is only used on strings of [in_tables]. *)

Definition in_tables (c : codepoint) : bool :=
  (c <? 384) || ((768 <=? c) && (c <=? 879)) || is_surrogate c.

Definition py_isalnum (c : codepoint) : bool :=
  ((48 <=? c) && (c <=? 57)) || ((65 <=? c) && (c <=? 90)) ||
  ((97 <=? c) && (c <=? 122)) ||
  (c =? 170) || (c =? 178) || (c =? 179) || (c =? 181) ||
  (c =? 185) || (c =? 186) || ((188 <=? c) && (c <=? 190)) ||
  ((192 <=? c) && (c <=? 214)) || ((216 <=? c) && (c <=? 246)) ||
  ((248 <=? c) && (c <=? 383)).

(** [chr(c).lower()]; U+0130 lower-cases to two code points. *)
Definition py_lower_char (c : codepoint) : str :=
  if ((65 <=? c) && (c <=? 90)) || ((192 <=? c) && (c <=? 214)) ||
     ((216 <=? c) && (c <=? 222))
  then [c + 32]
  else if c =? 304 then [105; 775]
  else if c =? 376 then [255]
  else if (((256 <=? c) && (c <=? 311)) || ((330 <=? c) && (c <=? 375)))
          && N.even c
  then [c + 1]
  else if (((313 <=? c) && (c <=? 328)) || ((377 <=? c) && (c <=? 382)))
          && N.odd c
  then [c + 1]
  else [c].

Definition py_ucd : UnicodeDB :=
  {| isalnum := py_isalnum; lower := flat_map py_lower_char;
     lower_nil := eq_refl |}.

(** A host on which no external call raises. *)
Definition quiet_host (os : string) (startfile : bool) : Host :=
  {| os_type := cps os; has_startfile := startfile;
     fails := fun _ _ => false |}.

(** The call by which [_win_settings] launches a URI. *)
Definition win_launch (host : Host) (uri : str) : call :=
  if has_startfile host then startfile uri
  else subprocess_run [cps "start"; uri] true.

(** ** The anatomy of a split

    [join p0 rest] puts back together what [scan] took apart: a part,
    and then each separator with the part behind it. *)
Definition join (p0 : str) (rest : list (str * str)) : str :=
  p0 ++ flat_map (fun mp => fst mp ++ snd mp) rest.

(** [m] is "and" or "then" in some letter case. *)
Definition ci_word (w m : str) : bool :=
  match strip_lit_ci w m with
  | Some (_, []) => true
  | _ => false
  end.

Definition is_connective (m : str) : bool :=
  ci_word (cps "and") m || ci_word (cps "then") m.

(** [\b] holds between the text [l] and the text [r] that follows it. *)
Definition word_boundary (U : UnicodeDB) (l r : str) : bool :=
  xorb (word_last U false l) (word_first U r).

(** The transcription [search for "fish and chips"], with its quotation
    marks (U+0022). *)
Definition fish_and_chips : str :=
  cps "search for " ++ [34] ++ cps "fish and chips" ++ [34].

(** The transcription "search " followed by the lone surrogate U+DC80,
    which is what the interpreter makes of the byte 0x80 in a command
    line argument. *)
Definition surrogate_search : str := cps "search " ++ [56448].

(** A host on which every external call raises. *)
Definition failing_host (os : string) (startfile : bool) : Host :=
  {| os_type := cps os; has_startfile := startfile;
     fails := fun _ _ => true |}.

(** ** Letter case

    The code points of the tables that [str.lower] maps to a single code
    point: all of them but U+0130, and [py_lower1] is that code point. *)
Definition simple_case (c : codepoint) : bool :=
  in_tables c && negb (c =? 304).

Definition py_lower1 (c : codepoint) : codepoint :=
  match py_lower_char c with
  | [x] => x
  | _ => c
  end.

(** The transcription "open" + U+0130 + "and x". *)
Definition dotted_I_and_x : str := cps "open" ++ [304] ++ cps "and x".

(** What lower-casing has to respect for the splitter, the trimming and
    a second lower-casing not to see a difference, as a check on one
    code point. *)
Definition case_check (c : codepoint) : bool :=
  implb (simple_case c)
    (str_eqb (py_lower_char c) [py_lower1 c] &&
     Bool.eqb (is_word py_ucd (py_lower1 c)) (is_word py_ucd c) &&
     Bool.eqb (is_space (py_lower1 c)) (is_space c) &&
     forallb (fun p => Bool.eqb (ci_eq (py_lower1 c) p) (ci_eq c p))
             (cps "andthen") &&
     simple_case (py_lower1 c) &&
     (py_lower1 (py_lower1 c) =? py_lower1 c)).

(** The [n] code points from [a] on, and the code points of
    [in_tables]. *)
Definition range (a : N) (n : nat) : list N :=
  List.map (fun i => a + N.of_nat i) (seq 0 n).

Definition table_points : list N :=
  range 0 384 ++ range 768 112 ++ range 55296 2048.

(** Every code point of [s] is in [D]. *)
Definition all_in (D : codepoint -> bool) (s : str) : Prop :=
  Forall (fun c => D c = true) s.

Definition map_pair (f : codepoint -> codepoint) (mp : str * str)
  : str * str :=
  (List.map f (fst mp), List.map f (snd mp)).

(** ** Calls as a function of the command

    The calls that a command makes on a host and whether it raises, read
    off [_dispatch] and what it calls; [dispatch_run] shows that this is
    what the code does, whichever external calls fail. *)

Definition settings_calls (host : Host) (target : str) : list call :=
  if contains (os_type host) (cps "windows")
  then [win_launch host (win_uri target)]
  else if contains (os_type host) (cps "darwin")
  then [subprocess_run [cps "open"; mac_uri target] false]
  else if contains (os_type host) (cps "linux")
  then [subprocess_run (linux_cmd target) false]
  else [].

Definition intent_calls (host : Host) (i : Intent) : list call :=
  match i with
  | Search [] => []
  | Search query =>
      match quote query with
      | Some q => [open_new_tab (cps "https://www.google.com/search?q=" ++ q)]
      | None => []
      end
  | OpenSite url => [open_new_tab url]
  | OpenSettings target => settings_calls host target
  | Unrecognized => []
  end.

Definition intent_outcome (i : Intent) : result unit :=
  match i with
  | Search [] => Ret tt
  | Search query =>
      match quote query with
      | Some _ => Ret tt
      | None => Raise UnicodeEncodeError
      end
  | _ => Ret tt
  end.

(** The calls of a sequence of segments: those of each segment in turn,
    up to and including the first segment that raises. *)
Fixpoint segments_calls (host : Host) (segs : list str) : list call :=
  match segs with
  | [] => []
  | seg :: segs' =>
      intent_calls host (classify seg) ++
      match intent_outcome (classify seg) with
      | Ret _ => segments_calls host segs'
      | Raise _ => []
      end
  end.

Fixpoint segments_outcome (segs : list str) : result unit :=
  match segs with
  | [] => Ret tt
  | seg :: segs' =>
      match intent_outcome (classify seg) with
      | Ret _ => segments_outcome segs'
      | Raise e => Raise e
      end
  end.

(** First match over a list of rules with results of any type. *)
Fixpoint first_match {A : Type} (rules : list (list str * A)) (default : A)
    (target : str) : A :=
  match rules with
  | [] => default
  | (keywords, a) :: rules' =>
      if any_in target keywords then a
      else first_match rules' default target
  end.

(** The rules of [_mac_settings]: what is appended to the URI. *)
Definition mac_rules : list (list str * str) :=
  [ ([cps "sound"; cps "audio"; cps "volume"], cps "com.apple.preference.sound");
    ([cps "display"; cps "screen"; cps "monitor"], cps "com.apple.preference.displays");
    ([cps "privacy"; cps "security"], cps "com.apple.preference.security?Privacy");
    ([cps "network"; cps "wifi"; cps "internet"], cps "com.apple.preference.network");
    ([cps "update"], cps "com.apple.preferences.softwareupdate") ].

(** The rules of [_linux_settings]: what is appended to the command. *)
Definition linux_rules : list (list str * list str) :=
  [ ([cps "sound"; cps "audio"; cps "volume"], [cps "sound"]);
    ([cps "display"; cps "screen"; cps "monitor"], [cps "display"]);
    ([cps "network"; cps "wifi"], [cps "network"]);
    ([cps "bluetooth"], [cps "bluetooth"]);
    ([cps "power"], [cps "power"]) ].

(** Every call other than a browser call that the commander can make:
    the launch of one of the seven Windows URIs, by either way, of one of
    the six macOS URIs, or one of the six control-center commands. *)
Definition win_uris : list str :=
  List.map snd win_rules ++ [cps "ms-settings:"].

Definition mac_uris : list str :=
  List.map (fun r => cps "x-apple.systempreferences:" ++ snd r) mac_rules ++
  [cps "x-apple.systempreferences:"].

Definition linux_cmds : list (list str) :=
  List.map (fun r => cps "gnome-control-center" :: snd r) linux_rules ++
  [[cps "gnome-control-center"]].

Definition launch_calls : list call :=
  List.map startfile win_uris ++
  List.map (fun u => subprocess_run [cps "start"; u] true) win_uris ++
  List.map (fun u => subprocess_run [cps "open"; u] false) mac_uris ++
  List.map (fun c => subprocess_run c false) linux_cmds.

(** The characters [quote] writes: letters, digits, [_.-~/] and [%]. *)
Definition url_safe (c : codepoint) : bool := is_safe_byte c || (c =? 37).

(** A call that carries no text of the transcription but a
    percent-encoded query: a launch of [launch_calls], a site of the
    directory, or a Google search for a string that [quote] wrote. *)
Definition vetted_call (c : call) : Prop :=
  match c with
  | open_new_tab url =>
      In url (List.map snd site_whitelist) \/
      exists query q,
        quote query = Some q /\
        url = cps "https://www.google.com/search?q=" ++ q
  | _ => In c launch_calls
  end.

(** ** Putting scans together

    [glue p0 rest q] is the scan [(p0, rest)] of a text followed by the
    scan [q] of what comes behind it, when no connective lies across the
    seam: the last part of the one runs into the first part of the
    other. *)
Fixpoint glue (p0 : str) (rest : list (str * str))
    (q : str * list (str * str)) : str * list (str * str) :=
  match rest with
  | [] => (p0 ++ fst q, snd q)
  | (m, p) :: rest' =>
      (p0, (m, fst (glue p rest' q)) :: snd (glue p rest' q))
  end.

(** A text before which a scan can be cut: it is empty, or it starts
    with a character that is neither a word character nor a letter of a
    connective. *)
Definition inert (U : UnicodeDB) (t : str) : Prop :=
  match t with
  | [] => True
  | c :: _ =>
      is_word U c = false /\
      forall p, In p (cps "andthen") -> ci_eq c p = false
  end.

(** ** The script

    [" ".join(args)] and the [__main__] block: [argv] is [sys.argv],
    with the name of the script first. *)
Fixpoint join_space (args : list str) : str :=
  match args with
  | [] => []
  | [a] => a
  | a :: args' => a ++ [32] ++ join_space args'
  end.

Definition main (U : UnicodeDB) (host : Host) (argv : list str) : Cmd unit :=
  match argv with
  | _ :: _ :: _ => execute U host (join_space (tl argv))
  | _ => ret tt
  end.

(** What lower-casing keeps of a code point of the tables: it gives at
    least one code point, all in the tables, white space exactly when it
    was white space, and lower-casing them again changes nothing. *)
Definition lower_check (c : codepoint) : bool :=
  implb (in_tables c)
    (nonempty (py_lower_char c) &&
     forallb (fun x => Bool.eqb (is_space x) (is_space c)) (py_lower_char c) &&
     forallb in_tables (py_lower_char c) &&
     str_eqb (flat_map py_lower_char (py_lower_char c)) (py_lower_char c)).

(** The keywords of a list of rules, each with the result of its rule. *)
Definition rule_keywords {A : Type} (rules : list (list str * A))
  : list (str * A) :=
  flat_map (fun r => List.map (fun k => (k, snd r)) (fst r)) rules.

(** The white space code points, as a list. *)
Definition space_points : list codepoint :=
  range 9 5 ++ range 28 5 ++ [133; 160; 5760] ++ range 8192 11 ++
  [8232; 8233; 8239; 8287; 12288].

(** * Properties *)

(** ** The code and its views *)

Lemma open_browser_run : forall host url tr,
  _open_browser host url tr = (tr ++ [open_new_tab url], Ret tt).
Proof.
  intros host url tr. unfold _open_browser, try_pass, external.
  destruct (fails host tr (open_new_tab url)); reflexivity.
Qed.

Lemma try_pass_returns : forall m tr, snd (try_pass m tr) = Ret tt.
Proof.
  intros m tr. unfold try_pass.
  destruct (m tr) as [tr' [[]|e]]; reflexivity.
Qed.

Lemma open_first_site_spec : forall host sites target tr,
  open_first_site host sites target tr =
  match first_site sites target with
  | Some url => (tr ++ [open_new_tab url], Ret tt)
  | None => (tr, Ret tt)
  end.
Proof.
  intros host sites target tr.
  induction sites as [|[key url] sites IH]; simpl.
  - reflexivity.
  - destruct (contains target key).
    + apply open_browser_run.
    + exact IH.
Qed.

Lemma dispatch_classify : forall host command,
  _dispatch host command = perform host (classify command).
Proof.
  intros host command. unfold _dispatch, classify.
  destruct (startswith command (cps "search") || startswith command (cps "find")).
  - unfold _handle_search, perform.
    destruct (strip (sub_search_prefix command)); reflexivity.
  - destruct (startswith command (cps "open")); [|reflexivity].
    unfold _handle_open.
    destruct (contains _ (cps "setting") || contains _ (cps "control panel")).
    + reflexivity.
    + generalize (strip (sub_open_prefix command)) as target.
      intros target. generalize site_whitelist as sites.
      induction sites as [|[key url] sites IH]; simpl.
      * reflexivity.
      * destruct (contains target key); [reflexivity|exact IH].
Qed.

Lemma for_each_filter_map :
  forall (f : str -> str) (body : str -> Cmd unit) (l : list str) tr,
  for_each l (fun part =>
     match f part with
     | [] => ret tt
     | _ => body (f part)
     end) tr =
  for_each (filter nonempty (List.map f l)) body tr.
Proof.
  intros f body l. induction l as [|part l IH]; intros tr; simpl.
  - reflexivity.
  - destruct (f part) as [|c s] eqn:E; simpl.
    + unfold bind at 1. simpl. apply IH.
    + unfold bind. destruct (body (c :: s) tr) as [tr' [[]|e]].
      * apply IH.
      * reflexivity.
Qed.

Lemma execute_segments : forall U host transcription tr,
  execute U host transcription tr =
  for_each (segments U transcription) (_dispatch host) tr.
Proof.
  intros U host [|c s] tr.
  - reflexivity.
  - unfold execute, segments.
    apply (for_each_filter_map (fun part => lower U (strip part))).
Qed.

Lemma first_site_split : forall sites target pre key url post,
  sites = pre ++ (key, url) :: post ->
  contains target key = true ->
  (forall k u, In (k, u) pre -> contains target k = false) ->
  first_site sites target = Some url.
Proof.
  intros sites target pre. revert sites.
  induction pre as [|[k u] pre IH]; intros sites key url post -> Hk Hpre; simpl.
  - now rewrite Hk.
  - rewrite (Hpre k u) by (left; reflexivity).
    apply (IH _ key url post eq_refl Hk).
    intros k' u' Hin. apply (Hpre k' u'). now right.
Qed.

Lemma open_not_search : forall command,
  startswith command (cps "open") = true ->
  startswith command (cps "search") || startswith command (cps "find") = false.
Proof.
  intros [|c s]; simpl; [discriminate|].
  intros H. apply andb_prop in H. destruct H as [H _].
  apply N.eqb_eq in H. subst c. reflexivity.
Qed.

(** What [_dispatch] does with an "open" command whose target is not a
    settings target. *)
Lemma dispatch_open_site : forall host command tr,
  startswith command (cps "open") = true ->
  contains (strip (sub_open_prefix command)) (cps "setting") = false ->
  contains (strip (sub_open_prefix command)) (cps "control panel") = false ->
  classify command =
    match first_site site_whitelist (strip (sub_open_prefix command)) with
    | Some url => OpenSite url
    | None => Unrecognized
    end /\
  _dispatch host command tr =
    match first_site site_whitelist (strip (sub_open_prefix command)) with
    | Some url => (tr ++ [open_new_tab url], Ret tt)
    | None => (tr, Ret tt)
    end.
Proof.
  intros host command tr Hopen Hs Hc.
  assert (Hcl : classify command =
    match first_site site_whitelist (strip (sub_open_prefix command)) with
    | Some url => OpenSite url
    | None => Unrecognized
    end).
  { unfold classify. rewrite (open_not_search _ Hopen), Hopen, Hs, Hc.
    reflexivity. }
  split; [exact Hcl|].
  rewrite dispatch_classify, Hcl.
  destruct (first_site _ _); simpl; [apply open_browser_run|reflexivity].
Qed.

(** ** Two-step commands *)

(** C1: "search for cats and open youtube" gives the two segments
    "search for cats" and "open youtube", taken as a search for "cats"
    and then the opening of https://www.youtube.com; "open youtube then
    search dogs" opens YouTube and then searches for "dogs".  The
    external calls are made in that order, on every host and whether or
    not a call fails. *)
Theorem two_step_commands_run_in_order : forall host tr,
  segments py_ucd (cps "search for cats and open youtube") =
    [cps "search for cats"; cps "open youtube"] /\
  List.map classify (segments py_ucd (cps "search for cats and open youtube")) =
    [Search (cps "cats"); OpenSite (cps "https://www.youtube.com")] /\
  execute py_ucd host (cps "search for cats and open youtube") tr =
    (tr ++ [open_new_tab (cps "https://www.google.com/search?q=cats");
            open_new_tab (cps "https://www.youtube.com")], Ret tt) /\
  List.map classify (segments py_ucd (cps "open youtube then search dogs")) =
    [OpenSite (cps "https://www.youtube.com"); Search (cps "dogs")] /\
  execute py_ucd host (cps "open youtube then search dogs") tr =
    (tr ++ [open_new_tab (cps "https://www.youtube.com");
            open_new_tab (cps "https://www.google.com/search?q=dogs")], Ret tt).
Proof.
  intros host tr.
  assert (S1 : segments py_ucd (cps "search for cats and open youtube") =
               [cps "search for cats"; cps "open youtube"])
    by (vm_compute; reflexivity).
  assert (S2 : segments py_ucd (cps "open youtube then search dogs") =
               [cps "open youtube"; cps "search dogs"])
    by (vm_compute; reflexivity).
  assert (K1 : classify (cps "search for cats") = Search (cps "cats"))
    by (vm_compute; reflexivity).
  assert (K2 : classify (cps "open youtube") =
               OpenSite (cps "https://www.youtube.com"))
    by (vm_compute; reflexivity).
  assert (K3 : classify (cps "search dogs") = Search (cps "dogs"))
    by (vm_compute; reflexivity).
  assert (Q1 : forall t, perform host (Search (cps "cats")) t =
      (t ++ [open_new_tab (cps "https://www.google.com/search?q=cats")], Ret tt))
    by (intros t; apply open_browser_run).
  assert (Q3 : forall t, perform host (Search (cps "dogs")) t =
      (t ++ [open_new_tab (cps "https://www.google.com/search?q=dogs")], Ret tt))
    by (intros t; apply open_browser_run).
  assert (Q2 : forall t, perform host (OpenSite (cps "https://www.youtube.com")) t =
      (t ++ [open_new_tab (cps "https://www.youtube.com")], Ret tt))
    by (intros t; apply open_browser_run).
  split; [|split; [|split; [|split]]].
  - exact S1.
  - rewrite S1. simpl List.map. now rewrite K1, K2.
  - rewrite execute_segments, S1. simpl for_each. unfold bind, ret.
    rewrite !dispatch_classify, K1, Q1, K2, Q2, <- app_assoc. reflexivity.
  - rewrite S2. simpl List.map. now rewrite K2, K3.
  - rewrite execute_segments, S2. simpl for_each. unfold bind, ret.
    rewrite !dispatch_classify, K2, Q2, K3, Q3, <- app_assoc. reflexivity.
Qed.

(** ** Opening sites *)

(** C2: for an "open" segment whose target has neither "setting" nor
    "control panel" in it, the site directory is read in insertion order
    and the first entry whose name occurs in the target is the one
    opened, by exactly one browser call; when no name occurs nothing is
    called.  "open youtube music" opens https://www.youtube.com. *)
Theorem first_site_in_order_wins : forall host tr,
  (forall command pre key url post,
     startswith command (cps "open") = true ->
     contains (strip (sub_open_prefix command)) (cps "setting") = false ->
     contains (strip (sub_open_prefix command)) (cps "control panel") = false ->
     site_whitelist = pre ++ (key, url) :: post ->
     contains (strip (sub_open_prefix command)) key = true ->
     (forall k u, In (k, u) pre ->
        contains (strip (sub_open_prefix command)) k = false) ->
     classify command = OpenSite url /\
     _dispatch host command tr = (tr ++ [open_new_tab url], Ret tt)) /\
  (forall command,
     startswith command (cps "open") = true ->
     contains (strip (sub_open_prefix command)) (cps "setting") = false ->
     contains (strip (sub_open_prefix command)) (cps "control panel") = false ->
     (forall k u, In (k, u) site_whitelist ->
        contains (strip (sub_open_prefix command)) k = false) ->
     classify command = Unrecognized /\
     _dispatch host command tr = (tr, Ret tt)) /\
  hd_error site_whitelist = Some (cps "youtube", cps "https://www.youtube.com") /\
  classify (cps "open youtube music") = OpenSite (cps "https://www.youtube.com") /\
  _dispatch host (cps "open youtube music") tr =
    (tr ++ [open_new_tab (cps "https://www.youtube.com")], Ret tt).
Proof.
  intros host tr. split; [|split; [|split; [|split]]].
  - intros command pre key url post Hopen Hs Hc Hsplit Hkey Hpre.
    destruct (dispatch_open_site host command tr Hopen Hs Hc) as [Hcl Hd].
    rewrite (first_site_split _ _ _ _ _ _ Hsplit Hkey Hpre) in Hcl, Hd.
    now split.
  - intros command Hopen Hs Hc Hnone.
    destruct (dispatch_open_site host command tr Hopen Hs Hc) as [Hcl Hd].
    assert (Hf : first_site site_whitelist (strip (sub_open_prefix command)) = None).
    { revert Hnone. generalize (strip (sub_open_prefix command)) as target.
      intros target. generalize site_whitelist as sites.
      induction sites as [|[k u] sites IH]; intros Hnone; simpl.
      - reflexivity.
      - rewrite (Hnone k u) by (left; reflexivity).
        apply IH. intros k' u' Hin. apply (Hnone k' u'). now right. }
    rewrite Hf in Hcl, Hd. now split.
  - reflexivity.
  - vm_compute. reflexivity.
  - destruct (dispatch_open_site host (cps "open youtube music") tr) as [_ Hd];
      try (vm_compute; reflexivity).
    rewrite Hd. vm_compute first_site. reflexivity.
Qed.

Lemma first_site_in_order_wins_witness :
  classify (cps "open my gmail inbox") = OpenSite (cps "https://mail.google.com") /\
  _dispatch (quiet_host "linux" false) (cps "open my gmail inbox") [] =
    ([open_new_tab (cps "https://mail.google.com")], Ret tt).
Proof.
  apply (proj1 (first_site_in_order_wins (quiet_host "linux" false) [])
           (cps "open my gmail inbox")
           [(cps "youtube", cps "https://www.youtube.com")]
           (cps "gmail") (cps "https://mail.google.com")
           (tl (tl site_whitelist))).
  - reflexivity.
  - vm_compute. reflexivity.
  - vm_compute. reflexivity.
  - reflexivity.
  - vm_compute. reflexivity.
  - intros k u [H|[]]. inversion H. vm_compute. reflexivity.
Defined.

(** C10: the directory has the one-letter name "x" and names are looked
    for anywhere in the target, so an "open" segment whose target has an
    "x" in it, is not a settings target and has none of the eight names
    before "x" in it opens https://x.com; "open xkcd" does. *)
Theorem letter_x_opens_x_com : forall host tr,
  (forall command,
     startswith command (cps "open") = true ->
     contains (strip (sub_open_prefix command)) (cps "setting") = false ->
     contains (strip (sub_open_prefix command)) (cps "control panel") = false ->
     contains (strip (sub_open_prefix command)) (cps "x") = true ->
     (forall k, In k [cps "youtube"; cps "gmail"; cps "google"; cps "reddit";
                      cps "github"; cps "amazon"; cps "netflix"; cps "twitter"] ->
        contains (strip (sub_open_prefix command)) k = false) ->
     classify command = OpenSite (cps "https://x.com") /\
     _dispatch host command tr = (tr ++ [open_new_tab (cps "https://x.com")], Ret tt)) /\
  classify (cps "open xkcd") = OpenSite (cps "https://x.com") /\
  _dispatch host (cps "open xkcd") tr =
    (tr ++ [open_new_tab (cps "https://x.com")], Ret tt).
Proof.
  intros host tr.
  assert (G : forall command,
     startswith command (cps "open") = true ->
     contains (strip (sub_open_prefix command)) (cps "setting") = false ->
     contains (strip (sub_open_prefix command)) (cps "control panel") = false ->
     contains (strip (sub_open_prefix command)) (cps "x") = true ->
     (forall k, In k [cps "youtube"; cps "gmail"; cps "google"; cps "reddit";
                      cps "github"; cps "amazon"; cps "netflix"; cps "twitter"] ->
        contains (strip (sub_open_prefix command)) k = false) ->
     classify command = OpenSite (cps "https://x.com") /\
     _dispatch host command tr = (tr ++ [open_new_tab (cps "https://x.com")], Ret tt)).
  { intros command Hopen Hs Hc Hx Hearlier.
    destruct (dispatch_open_site host command tr Hopen Hs Hc) as [Hcl Hd].
    assert (Hf : first_site site_whitelist (strip (sub_open_prefix command)) =
                 Some (cps "https://x.com")).
    { apply (first_site_split _ _ (firstn 8 site_whitelist) (cps "x") _
               (skipn 9 site_whitelist) eq_refl Hx).
      intros k u Hin. apply Hearlier.
      simpl in Hin.
      repeat (destruct Hin as [Hin|Hin];
              [inversion Hin; simpl; tauto|]).
      destruct Hin. }
    rewrite Hf in Hcl, Hd. now split. }
  split; [exact G|].
  apply G; try (vm_compute; reflexivity).
  intros k Hin. simpl in Hin.
  repeat (destruct Hin as [Hin|Hin]; [subst k; vm_compute; reflexivity|]).
  destruct Hin.
Qed.

Lemma letter_x_opens_x_com_witness :
  classify (cps "open the inbox") = OpenSite (cps "https://x.com") /\
  _dispatch (quiet_host "darwin" false) (cps "open the inbox") [] =
    ([open_new_tab (cps "https://x.com")], Ret tt).
Proof.
  apply (proj1 (letter_x_opens_x_com (quiet_host "darwin" false) [])
           (cps "open the inbox")); try (vm_compute; reflexivity).
  intros k Hin. simpl in Hin.
  repeat (destruct Hin as [Hin|Hin]; [subst k; vm_compute; reflexivity|]).
  destruct Hin.
Defined.

(** ** Commands that are not recognised *)

(** C8: a segment that starts with none of "search", "find" and "open"
    is not recognised and [_dispatch] returns without any external call;
    the transcription "frobnicate the whatsit" is one such segment and
    [execute] makes no call on it. *)
Theorem unrecognized_segment_makes_no_call : forall host tr,
  (forall command,
     startswith command (cps "search") = false ->
     startswith command (cps "find") = false ->
     startswith command (cps "open") = false ->
     classify command = Unrecognized /\
     _dispatch host command tr = (tr, Ret tt)) /\
  segments py_ucd (cps "frobnicate the whatsit") = [cps "frobnicate the whatsit"] /\
  classify (cps "frobnicate the whatsit") = Unrecognized /\
  execute py_ucd host (cps "frobnicate the whatsit") tr = (tr, Ret tt).
Proof.
  intros host tr.
  assert (G : forall command,
     startswith command (cps "search") = false ->
     startswith command (cps "find") = false ->
     startswith command (cps "open") = false ->
     classify command = Unrecognized /\
     _dispatch host command tr = (tr, Ret tt)).
  { intros command Hs Hf Ho.
    unfold _dispatch, classify. rewrite Hs, Hf, Ho. simpl. now split. }
  split; [exact G|].
  assert (S1 : segments py_ucd (cps "frobnicate the whatsit") =
               [cps "frobnicate the whatsit"]) by (vm_compute; reflexivity).
  split; [exact S1|]. split; [vm_compute; reflexivity|].
  rewrite execute_segments, S1. simpl for_each. unfold bind.
  destruct (G (cps "frobnicate the whatsit") eq_refl eq_refl eq_refl) as [_ Hd].
  rewrite Hd. reflexivity.
Qed.

Lemma unrecognized_segment_makes_no_call_witness :
  classify (cps "play some music") = Unrecognized /\
  _dispatch (quiet_host "windows" true) (cps "play some music")
            [open_new_tab (cps "https://x.com")] =
    ([open_new_tab (cps "https://x.com")], Ret tt).
Proof.
  apply (proj1 (unrecognized_segment_makes_no_call
                  (quiet_host "windows" true)
                  [open_new_tab (cps "https://x.com")])
           (cps "play some music")); vm_compute; reflexivity.
Defined.

(** ** Settings on Windows *)

Lemma win_uri_first_rule : forall target,
  win_uri target = first_rule win_rules (cps "ms-settings:") target.
Proof.
  intros target. unfold win_uri, win_rules, first_rule.
  repeat match goal with
         | |- context [if ?b then _ else _] => destruct b; try reflexivity
         end.
Qed.

Lemma open_system_settings_windows : forall host target tr,
  contains (os_type host) (cps "windows") = true ->
  _open_system_settings host target tr =
    (tr ++ [win_launch host (win_uri target)], Ret tt).
Proof.
  intros host target tr Hw.
  unfold _open_system_settings, try_pass. rewrite Hw.
  unfold _win_settings, win_launch, external.
  destruct (has_startfile host);
    match goal with
    | |- context [fails ?h ?t ?c] => destruct (fails h t c)
    end; reflexivity.
Qed.

(** C5: on a host whose system name has "windows" in it, the segment
    "open settings sound" is a settings command and launches
    ms-settings:sound, not the default ms-settings:.  For every target
    the URI is the one of the first rule, top to bottom, one of whose
    keywords occurs in the target, and the default when there is none. *)
Theorem windows_settings_sound : forall host tr,
  contains (os_type host) (cps "windows") = true ->
  classify (cps "open settings sound") = OpenSettings (cps "settings sound") /\
  _dispatch host (cps "open settings sound") tr =
    (tr ++ [win_launch host (cps "ms-settings:sound")], Ret tt) /\
  cps "ms-settings:sound" <> cps "ms-settings:" /\
  (forall target,
     win_uri target = first_rule win_rules (cps "ms-settings:") target) /\
  (forall target,
     _open_system_settings host target tr =
       (tr ++ [win_launch host (first_rule win_rules (cps "ms-settings:") target)],
        Ret tt)).
Proof.
  intros host tr Hw.
  assert (K : classify (cps "open settings sound") =
              OpenSettings (cps "settings sound")) by (vm_compute; reflexivity).
  split; [exact K|]. split; [|split; [|split]].
  - rewrite dispatch_classify, K. simpl perform.
    rewrite (open_system_settings_windows host _ tr Hw).
    reflexivity.
  - discriminate.
  - exact win_uri_first_rule.
  - intros target. rewrite <- win_uri_first_rule.
    apply (open_system_settings_windows host target tr Hw).
Qed.

Lemma windows_settings_sound_witness :
  _dispatch (quiet_host "windows" true) (cps "open settings sound") [] =
    ([startfile (cps "ms-settings:sound")], Ret tt).
Proof.
  apply (proj1 (proj2 (windows_settings_sound (quiet_host "windows" true) []
                         eq_refl))).
Defined.

(** ** The splitter *)

Lemma strip_lit_ci_spec : forall p s m r,
  strip_lit_ci p s = Some (m, r) ->
  s = m ++ r /\ strip_lit_ci p m = Some (m, []) /\ List.length m = List.length p.
Proof.
  induction p as [|a p IH]; intros s m r H; simpl in H.
  - inversion H. subst. auto.
  - destruct s as [|b s]; [discriminate|].
    destruct (ci_eq b a) eqn:E; [|discriminate].
    destruct (strip_lit_ci p s) as [[m' r']|] eqn:E'; [|discriminate].
    inversion H. subst. destruct (IH _ _ _ E') as (-> & Hm & Hl).
    simpl. rewrite E, Hm, Hl. auto.
Qed.

Lemma word_last_app : forall U a b prev,
  word_last U prev (a ++ b) = word_last U (word_last U prev a) b.
Proof.
  intros U a. induction a as [|c a IH]; intros b prev; simpl; auto.
Qed.

Lemma word_first_app : forall U a b,
  a <> [] -> word_first U (a ++ b) = word_first U a.
Proof.
  intros U [|c a] b H; [congruence|reflexivity].
Qed.

Lemma match_word_spec : forall U w prev s m r,
  match_word U w prev s = Some (m, r) ->
  s = m ++ r /\ ci_word w m = true /\ List.length m = List.length w /\
  boundary U prev s = true /\ boundary U (word_last U prev m) r = true.
Proof.
  intros U w prev s m r H. unfold match_word in H.
  destruct (boundary U prev s) eqn:B1; [|discriminate].
  destruct (strip_lit_ci w s) as [[m' r']|] eqn:E; [|discriminate].
  destruct (boundary U (word_last U prev m') r') eqn:B2; [|discriminate].
  inversion H. subst.
  destruct (strip_lit_ci_spec _ _ _ _ E) as (-> & Hm & Hl).
  unfold ci_word. rewrite Hm. auto.
Qed.

Lemma match_connective_spec : forall U prev s m r,
  match_connective U prev s = Some (m, r) ->
  s = m ++ r /\ is_connective m = true /\ (3 <= List.length m)%nat /\
  boundary U prev s = true /\ boundary U (word_last U prev m) r = true.
Proof.
  intros U prev s m r H. unfold match_connective in H.
  destruct (match_word U (cps "and") prev s) as [[m' r']|] eqn:E.
  - inversion H. subst.
    destruct (match_word_spec _ _ _ _ _ _ E) as (-> & Hc & Hl & B1 & B2).
    unfold is_connective. rewrite Hc, Hl. simpl. auto.
  - destruct (match_word_spec _ _ _ _ _ _ H) as (-> & Hc & Hl & B1 & B2).
    unfold is_connective. rewrite Hc, Hl, orb_true_r. simpl.
    repeat split; auto.
Qed.

Lemma join_cons : forall c p rest, join (c :: p) rest = c :: join p rest.
Proof. reflexivity. Qed.

Lemma join_sep : forall m p rest, join [] ((m, p) :: rest) = m ++ join p rest.
Proof. intros. unfold join. simpl. now rewrite app_assoc. Qed.

Lemma join_app : forall p0 pre m p post,
  join p0 (pre ++ (m, p) :: post) = join p0 pre ++ m ++ join p post.
Proof.
  intros. unfold join. rewrite flat_map_app. simpl.
  now rewrite <- !app_assoc.
Qed.

(** Every separator that the scan takes out is a connective standing
    between two word boundaries of the text. *)
Lemma split_scan_sound : forall U n prev s p0 rest,
  (List.length s < n)%nat ->
  split_scan U n prev s = (p0, rest) ->
  join p0 rest = s /\
  forall pre m p post, rest = pre ++ (m, p) :: post ->
    is_connective m = true /\
    xorb (word_last U prev (join p0 pre)) (word_first U m) = true /\
    xorb (word_last U prev (join p0 pre ++ m)) (word_first U (join p post)) = true.
Proof.
  intros U n. induction n as [|n IH]; intros prev s p0 rest Hn H; [lia|].
  simpl in H. destruct s as [|c s'].
  - inversion H. subst. split; [reflexivity|].
    intros [|? ?] ? ? ? E; discriminate.
  - destruct (match_connective U prev (c :: s')) as [[m r]|] eqn:M.
    + destruct (match_connective_spec _ _ _ _ _ M) as (Hs & Hc & Hl & B1 & B2).
      destruct (split_scan U n (word_last U prev m) r) as [p rest'] eqn:R.
      inversion H. subst p0 rest. clear H.
      assert (Hr : (List.length r < n)%nat).
      { apply (f_equal (@List.length _)) in Hs.
        rewrite length_app in Hs. simpl in Hs, Hn. lia. }
      destruct (IH _ _ _ _ Hr R) as [J Hseps].
      assert (Hne : m <> []) by (destruct m; simpl in Hl; [lia|discriminate]).
      split.
      * rewrite join_sep, J. now symmetry.
      * intros [|[m1 p1] pre] m0 p' post E; simpl in E;
          injection E as Em Ep Er.
        -- subst m0 p' post. split; [exact Hc|]. unfold join at 1 2. simpl.
           unfold boundary in B1, B2. rewrite Hs in B1.
           rewrite (word_first_app U m r Hne) in B1.
           rewrite J. auto.
        -- subst m1 p1.
           destruct (Hseps _ _ _ _ Er) as (C & X1 & X2).
           split; [exact C|].
           rewrite join_sep, <- app_assoc, !word_last_app.
           rewrite word_last_app in X2. auto.
    + destruct (split_scan U n (is_word U c) s') as [p rest'] eqn:R.
      inversion H. subst p0 rest. clear H.
      assert (Hr : (List.length s' < n)%nat) by (simpl in Hn; lia).
      destruct (IH _ _ _ _ Hr R) as [J Hseps].
      split.
      * rewrite join_cons, J. reflexivity.
      * intros pre m0 p' post E.
        destruct (Hseps _ _ _ _ E) as (C & X1 & X2).
        split; [exact C|]. rewrite join_cons. simpl. auto.
Qed.

(** The bound on the number of steps never cuts a scan short: any bound
    above the length of the text gives the same result. *)
Lemma split_scan_fuel : forall U n n' prev s,
  (List.length s < n)%nat -> (List.length s < n')%nat ->
  split_scan U n prev s = split_scan U n' prev s.
Proof.
  intros U n. induction n as [|n IH]; intros n' prev s Hn Hn'; [lia|].
  destruct n' as [|n']; [lia|]. simpl.
  destruct s as [|c s']; [reflexivity|].
  destruct (match_connective U prev (c :: s')) as [[m r]|] eqn:M.
  - destruct (match_connective_spec _ _ _ _ _ M) as (Hs & _ & Hl & _).
    apply (f_equal (@List.length _)) in Hs. rewrite length_app in Hs.
    simpl in Hs, Hn, Hn'.
    rewrite (IH n' (word_last U prev m) r) by lia. reflexivity.
  - simpl in Hn, Hn'. rewrite (IH n' (is_word U c) s') by lia. reflexivity.
Qed.

Lemma scan_sound : forall U T,
  join (fst (scan U T)) (snd (scan U T)) = T /\
  forall pre m p post, snd (scan U T) = pre ++ (m, p) :: post ->
    T = join (fst (scan U T)) pre ++ m ++ join p post /\
    is_connective m = true /\
    word_boundary U (join (fst (scan U T)) pre) (m ++ join p post) = true /\
    word_boundary U (join (fst (scan U T)) pre ++ m) (join p post) = true.
Proof.
  intros U T. unfold scan.
  destruct (split_scan U (S (List.length T)) false T) as [p0 rest] eqn:E.
  destruct (split_scan_sound U _ _ _ _ _ (Nat.lt_succ_diag_r _) E) as [J Hseps].
  split; [exact J|]. simpl.
  intros pre m p post Hr.
  destruct (Hseps _ _ _ _ Hr) as (C & X1 & X2).
  split; [|split; [exact C|split]].
  - rewrite <- J at 1. rewrite Hr. apply join_app.
  - unfold word_boundary. rewrite word_first_app; [exact X1|].
    intros ->. discriminate.
  - exact X2.
Qed.

Lemma space_not_letter : forall c,
  is_space c = true -> ci_eq c 97 = false /\ ci_eq c 116 = false.
Proof.
  intros c H. unfold ci_eq. simpl.
  destruct (N.eqb_spec c 97) as [->|_]; [discriminate|].
  destruct (N.eqb_spec c 65) as [->|_]; [discriminate|].
  destruct (N.eqb_spec c 116) as [->|_]; [discriminate|].
  destruct (N.eqb_spec c 84) as [->|_]; [discriminate|].
  auto.
Qed.

Lemma match_connective_space : forall U prev c s,
  is_space c = true -> match_connective U prev (c :: s) = None.
Proof.
  intros U prev c s H. destruct (space_not_letter c H) as [Ha Ht].
  unfold match_connective, match_word. simpl. rewrite Ha, Ht.
  destruct (boundary U prev (c :: s)); reflexivity.
Qed.

Lemma split_scan_spaces : forall U n prev s,
  forallb is_space s = true -> split_scan U n prev s = (s, []).
Proof.
  intros U n. induction n as [|n IH]; intros prev s H; simpl.
  - reflexivity.
  - destruct s as [|c s]; [reflexivity|].
    simpl in H. apply andb_prop in H. destruct H as [Hc Hs].
    rewrite (match_connective_space U prev c s Hc), (IH _ _ Hs).
    reflexivity.
Qed.

Lemma lstrip_spaces : forall s, forallb is_space s = true -> lstrip s = [].
Proof.
  induction s as [|c s IH]; simpl; intros H; [reflexivity|].
  apply andb_prop in H. destruct H as [-> Hs]. auto.
Qed.

Lemma strip_spaces : forall s, forallb is_space s = true -> strip s = [].
Proof.
  intros s H. unfold strip. rewrite (lstrip_spaces s H). reflexivity.
Qed.

Lemma segments_filter : forall U T,
  segments U T =
  filter nonempty (List.map (fun part => lower U (strip part)) (re_split U T)).
Proof.
  intros U [|c s]; [|reflexivity].
  simpl. change (strip []) with (@nil codepoint).
  rewrite (lower_nil U). reflexivity.
Qed.

Lemma segments_nonempty : forall U T,
  Forall (fun seg => seg <> []) (segments U T).
Proof.
  intros U T. rewrite segments_filter. apply Forall_forall.
  intros seg Hin. apply filter_In in Hin. destruct Hin as [_ Hne].
  intros ->. discriminate.
Qed.

(** C7: the segments of a transcription are never empty; they are the
    parts between the connectives of the transcription, trimmed and
    lower-cased, in the order in which the parts stand in it, the empty
    ones left out; and a transcription that is empty or all white space
    has no segment and [execute] makes no call on it. *)
Theorem segments_in_order_never_empty : forall U T,
  Forall (fun seg => seg <> []) (segments U T) /\
  (exists p0 rest,
     re_split U T = p0 :: List.map snd rest /\
     join p0 rest = T /\
     Forall (fun mp => is_connective (fst mp) = true) rest /\
     segments U T =
       filter nonempty
         (List.map (fun part => lower U (strip part)) (p0 :: List.map snd rest))) /\
  (forall host tr,
     forallb is_space T = true ->
     segments U T = [] /\ execute U host T tr = (tr, Ret tt)).
Proof.
  intros U T. split; [apply segments_nonempty|]. split.
  - exists (fst (scan U T)), (snd (scan U T)).
    destruct (scan_sound U T) as [J Hseps].
    split; [reflexivity|]. split; [exact J|]. split.
    + apply Forall_forall. intros [m p] Hin.
      destruct (in_split _ _ Hin) as (pre & post & E).
      destruct (Hseps _ _ _ _ E) as (_ & C & _). exact C.
    + apply segments_filter.
  - intros host tr Hsp.
    assert (S0 : segments U T = []).
    { rewrite segments_filter. unfold re_split, scan.
      rewrite (split_scan_spaces U _ false T Hsp). simpl.
      rewrite (strip_spaces T Hsp), (lower_nil U). reflexivity. }
    split; [exact S0|].
    rewrite execute_segments, S0. reflexivity.
Qed.

Lemma segments_in_order_never_empty_witness :
  segments py_ucd [32; 9; 32] = [] /\
  execute py_ucd (quiet_host "linux" false) [32; 9; 32] [] = ([], Ret tt).
Proof.
  apply (proj2 (proj2 (segments_in_order_never_empty py_ucd [32; 9; 32]))
           (quiet_host "linux" false) []).
  reflexivity.
Defined.

(** C3, as the code has it: the splitter takes a connective out only
    where it stands as a whole word, with a word boundary on either
    side, in any letter case; quotation marks play no part.  So "open
    sandy settings" is one segment, and the transcription
    [search for "fish and chips"] is split in two at its "and". *)
Theorem splits_only_at_whole_words : forall U T pre m p post,
  snd (scan U T) = pre ++ (m, p) :: post ->
  (re_split U T = fst (scan U T) :: List.map snd (snd (scan U T)) /\
   T = join (fst (scan U T)) pre ++ m ++ join p post /\
   is_connective m = true /\
   word_boundary U (join (fst (scan U T)) pre) (m ++ join p post) = true /\
   word_boundary U (join (fst (scan U T)) pre ++ m) (join p post) = true) /\
  segments py_ucd (cps "open sandy settings") = [cps "open sandy settings"] /\
  segments py_ucd fish_and_chips =
    [cps "search for " ++ [34] ++ cps "fish"; cps "chips" ++ [34]].
Proof.
  intros U T pre m p post E. split; [|split].
  - split; [reflexivity|].
    destruct (scan_sound U T) as [_ Hseps]. exact (Hseps _ _ _ _ E).
  - vm_compute. reflexivity.
  - vm_compute. reflexivity.
Qed.

Lemma splits_only_at_whole_words_witness :
  cps "a AND b" = join (cps "a ") [] ++ cps "AND" ++ join (cps " b") [] /\
  is_connective (cps "AND") = true /\
  word_boundary py_ucd (cps "a ") (cps "AND b") = true /\
  word_boundary py_ucd (cps "a AND") (cps " b") = true.
Proof.
  apply (proj2 (proj1 (splits_only_at_whole_words py_ucd (cps "a AND b")
                         [] (cps "AND") (cps " b") [] eq_refl))).
Defined.

(** C3 as it was stated fails: a connective inside quotation marks does
    split the transcription. *)
Lemma quoted_connective_splits :
  re_split py_ucd fish_and_chips =
    [cps "search for " ++ [34] ++ cps "fish "; cps " chips" ++ [34]] /\
  re_split py_ucd fish_and_chips <> [fish_and_chips] /\
  List.length (segments py_ucd fish_and_chips) = 2%nat.
Proof.
  split; [vm_compute; reflexivity|]. split; [|vm_compute; reflexivity].
  vm_compute. discriminate.
Qed.

(** ** Trimming *)

Lemma lstrip_suffix : forall s, exists pre, s = pre ++ lstrip s.
Proof.
  induction s as [|c s [pre IH]]; simpl.
  - exists []. reflexivity.
  - destruct (is_space c).
    + exists (c :: pre). simpl. now rewrite <- IH.
    + exists []. reflexivity.
Qed.

Lemma lstrip_head : forall s c z, lstrip s = c :: z -> is_space c = false.
Proof.
  induction s as [|a s IH]; simpl; intros c z H; [discriminate|].
  destruct (is_space a) eqn:E.
  - exact (IH _ _ H).
  - inversion H. now subst.
Qed.

Lemma lstrip_length : forall s, (List.length (lstrip s) <= List.length s)%nat.
Proof.
  induction s as [|c s IH]; simpl; [lia|].
  destruct (is_space c); simpl; lia.
Qed.

Lemma lstrip_id : forall c z, is_space c = false -> lstrip (c :: z) = c :: z.
Proof. intros c z H. simpl. now rewrite H. Qed.

Lemma lstrip_same_length : forall s,
  List.length (lstrip s) = List.length s -> lstrip s = s.
Proof.
  intros [|c s]; simpl; [reflexivity|].
  destruct (is_space c); [|reflexivity].
  intros H. pose proof (lstrip_length s). lia.
Qed.

Lemma rstrip_length : forall s, (List.length (rstrip s) <= List.length s)%nat.
Proof.
  intros s. unfold rstrip. rewrite length_rev.
  pose proof (lstrip_length (rev s)). rewrite length_rev in H. exact H.
Qed.

(** A string that [strip] leaves alone has no white space at either
    end. *)
Lemma strip_fixed : forall s,
  strip s = s -> lstrip s = s /\ lstrip (rev s) = rev s.
Proof.
  intros s H.
  assert (L : lstrip s = s).
  { apply lstrip_same_length.
    pose proof (lstrip_length s). pose proof (rstrip_length (lstrip s)).
    unfold strip in H. rewrite H in H1. lia. }
  split; [exact L|].
  unfold strip in H. rewrite L in H. unfold rstrip in H.
  apply (f_equal (@rev _)) in H. now rewrite rev_involutive in H.
Qed.

Lemma strip_suffix_fixed : forall pre c z,
  strip (pre ++ c :: z) = pre ++ c :: z ->
  is_space c = false ->
  strip (c :: z) = c :: z.
Proof.
  intros pre c z H Hc. destruct (strip_fixed _ H) as [_ R].
  unfold strip. rewrite (lstrip_id c z Hc). unfold rstrip.
  rewrite rev_app_distr in R.
  destruct (rev (c :: z)) as [|a y] eqn:E.
  - apply (f_equal (@List.length _)) in E. rewrite length_rev in E.
    discriminate.
  - simpl in R. simpl. destruct (is_space a) eqn:Ea.
    + exfalso. pose proof (lstrip_length (y ++ rev pre)).
      rewrite R in H0. simpl in H0. lia.
    + rewrite <- E. apply rev_involutive.
Qed.

Lemma strip_nonempty : forall c z,
  is_space c = false -> strip (c :: z) <> [].
Proof.
  intros c z Hc E. unfold strip in E. rewrite (lstrip_id c z Hc) in E.
  unfold rstrip in E. apply (f_equal (@rev _)) in E.
  rewrite rev_involutive in E. simpl in E.
  assert (A : forall y, lstrip (y ++ [c]) <> []).
  { induction y as [|a y IH]; simpl.
    - rewrite Hc. discriminate.
    - destruct (is_space a); [exact IH|discriminate]. }
  exact (A _ E).
Qed.

(** ** Searching *)

Lemma strip_lit_spec : forall p s r, strip_lit p s = Some r -> s = p ++ r.
Proof.
  induction p as [|a p IH]; simpl; intros s r H.
  - now inversion H.
  - destruct s as [|b s]; [discriminate|].
    destruct (N.eqb_spec b a) as [->|]; [|discriminate].
    now rewrite (IH _ _ H).
Qed.

Lemma spaces1_spec : forall s r,
  spaces1 s = Some r ->
  (exists pre, s = pre ++ r) /\
  (forall c z, r = c :: z -> is_space c = false).
Proof.
  intros [|c s] r H; simpl in H; [discriminate|].
  destruct (is_space c); [|discriminate]. inversion H. subst r. split.
  - destruct (lstrip_suffix s) as [pre E]. exists (c :: pre).
    simpl. now rewrite <- E.
  - intros a z E. exact (lstrip_head _ _ _ E).
Qed.

(** The remainder left by the pattern of [_handle_search] is the end of
    the command, and it does not start with white space. *)
Lemma sub_search_prefix_spec : forall command,
  startswith command (cps "search") || startswith command (cps "find") = true ->
  (exists pre, command = pre ++ sub_search_prefix command) /\
  (forall c z, sub_search_prefix command = c :: z -> is_space c = false).
Proof.
  intros command Hverb.
  assert (Hown : (exists pre, command = pre ++ command) /\
                 (forall c z, command = c :: z -> is_space c = false)).
  { split; [exists []; reflexivity|].
    intros c z ->. simpl in Hverb.
    destruct (N.eqb_spec c 115) as [->|_]; [reflexivity|].
    destruct (N.eqb_spec c 102) as [->|_]; [reflexivity|].
    discriminate. }
  unfold sub_search_prefix.
  destruct (match strip_lit (cps "search") command with
            | Some r => Some r
            | None => strip_lit (cps "find") command
            end) as [r|] eqn:V; [|exact Hown].
  assert (Hr : exists w, command = w ++ r).
  { destruct (strip_lit (cps "search") command) as [r'|] eqn:V1.
    - inversion V. subst r'. eexists. exact (strip_lit_spec _ _ _ V1).
    - eexists. exact (strip_lit_spec _ _ _ V). }
  destruct Hr as [w Hw].
  destruct (spaces1 r) as [r1|] eqn:S1; [|exact Hown].
  destruct (spaces1_spec _ _ S1) as [[pre1 E1] H1].
  assert (R1 : (exists pre, command = pre ++ r1) /\
               (forall c z, r1 = c :: z -> is_space c = false)).
  { split; [|exact H1]. exists (w ++ pre1).
    now rewrite Hw, E1, app_assoc. }
  destruct (strip_lit (cps "for") r1) as [r2|] eqn:F; [|exact R1].
  destruct (spaces1 r2) as [r3|] eqn:S3; [|exact R1].
  destruct (spaces1_spec _ _ S3) as [[pre3 E3] H3].
  split; [|exact H3].
  exists (w ++ pre1 ++ cps "for" ++ pre3).
  rewrite Hw, E1, (strip_lit_spec _ _ _ F), E3, <- !app_assoc. reflexivity.
Qed.

Lemma handle_search_run : forall host command tr,
  startswith command (cps "search") || startswith command (cps "find") = true ->
  classify command = Search (strip (sub_search_prefix command)) /\
  _dispatch host command tr =
    match strip (sub_search_prefix command) with
    | [] => (tr, Ret tt)
    | query =>
        match quote query with
        | Some q =>
            (tr ++ [open_new_tab (cps "https://www.google.com/search?q=" ++ q)],
             Ret tt)
        | None => (tr, Raise UnicodeEncodeError)
        end
    end.
Proof.
  intros host command tr Hverb.
  assert (K : classify command = Search (strip (sub_search_prefix command)))
    by (unfold classify; now rewrite Hverb).
  split; [exact K|]. rewrite dispatch_classify, K. simpl.
  destruct (strip (sub_search_prefix command)) as [|c z]; [reflexivity|].
  destruct (quote (c :: z)); [apply open_browser_run|reflexivity].
Qed.

Lemma utf8_char_none : forall c, utf8_char c = None <-> is_surrogate c = true.
Proof.
  intros c. unfold utf8_char, is_surrogate.
  destruct (N.ltb_spec c 128); [split; [discriminate|]|].
  { intros E. apply andb_prop in E. destruct E as [E _].
    apply N.leb_le in E. lia. }
  destruct (N.ltb_spec c 2048); [split; [discriminate|]|].
  { intros E. apply andb_prop in E. destruct E as [E _].
    apply N.leb_le in E. lia. }
  destruct ((55296 <=? c) && (c <=? 57343)); [tauto|].
  destruct (c <? 65536); split; discriminate.
Qed.

Lemma utf8_encode_none : forall s,
  utf8_encode s = None <-> existsb is_surrogate s = true.
Proof.
  induction s as [|c s IH]; simpl.
  - split; discriminate.
  - rewrite orb_true_iff, <- IH, <- utf8_char_none.
    destruct (utf8_char c), (utf8_encode s); split; intros H;
      try discriminate; try tauto; destruct H; discriminate.
Qed.

(** [quote] raises exactly on the strings that hold a surrogate. *)
Lemma quote_none : forall s,
  quote s = None <-> existsb is_surrogate s = true.
Proof.
  intros s. rewrite <- utf8_encode_none. unfold quote.
  destruct (utf8_encode s); split; intros H; try discriminate; reflexivity.
Qed.

(** C4: for a segment that starts with "search" or "find" the query is
    what is left of it behind one leading match of
    [(search|find)(\s+for)?\s+]; nothing is called when that remainder is
    empty, and a remainder that is not empty and can be encoded is sent
    to the browser as the Google search URL with the percent-encoded
    query.  A remainder that holds a lone surrogate cannot be encoded:
    there [urllib.parse.quote] raises before the browser is reached, as
    for "search " followed by U+DC80, so that the browser is not invoked
    although the remainder is not empty. *)
Theorem search_query_reaches_browser : forall host tr,
  (forall command,
     startswith command (cps "search") || startswith command (cps "find") = true ->
     classify command = Search (strip (sub_search_prefix command)) /\
     (strip command = command ->
        strip (sub_search_prefix command) = sub_search_prefix command) /\
     (sub_search_prefix command = [] ->
        _dispatch host command tr = (tr, Ret tt)) /\
     (forall q,
        sub_search_prefix command <> [] ->
        quote (strip (sub_search_prefix command)) = Some q ->
        _dispatch host command tr =
          (tr ++ [open_new_tab (cps "https://www.google.com/search?q=" ++ q)],
           Ret tt)) /\
     (sub_search_prefix command <> [] ->
        existsb is_surrogate (strip (sub_search_prefix command)) = true ->
        _dispatch host command tr = (tr, Raise UnicodeEncodeError))) /\
  startswith surrogate_search (cps "search") = true /\
  strip surrogate_search = surrogate_search /\
  sub_search_prefix surrogate_search = [56448] /\
  _dispatch host surrogate_search tr = (tr, Raise UnicodeEncodeError).
Proof.
  intros host tr. split.
  - intros command Hverb.
    destruct (handle_search_run host command tr Hverb) as [K D].
    destruct (sub_search_prefix_spec command Hverb) as [[pre Hsuf] Hhead].
    split; [exact K|]. split; [|split; [|split]].
    + intros Htrim. destruct (sub_search_prefix command) as [|c z] eqn:E.
      * reflexivity.
      * rewrite Hsuf in Htrim.
        exact (strip_suffix_fixed pre c z Htrim (Hhead c z eq_refl)).
    + intros E. rewrite D, E. reflexivity.
    + intros q Hne Hq. rewrite D.
      destruct (sub_search_prefix command) as [|c z] eqn:E; [congruence|].
      destruct (strip (c :: z)) as [|a y] eqn:S.
      * exfalso. exact (strip_nonempty c z (Hhead c z eq_refl) S).
      * rewrite Hq. reflexivity.
    + intros Hne Hsur. apply quote_none in Hsur. rewrite D.
      destruct (sub_search_prefix command) as [|c z] eqn:E; [congruence|].
      destruct (strip (c :: z)) as [|a y] eqn:S.
      * exfalso. exact (strip_nonempty c z (Hhead c z eq_refl) S).
      * rewrite Hsur. reflexivity.
  - split; [reflexivity|]. split; [vm_compute; reflexivity|].
    split; [vm_compute; reflexivity|].
    destruct (handle_search_run host surrogate_search tr eq_refl) as [_ D].
    rewrite D. vm_compute. reflexivity.
Qed.

Lemma search_query_reaches_browser_witness :
  _dispatch (quiet_host "linux" false) (cps "find for red shoes") [] =
    ([open_new_tab (cps "https://www.google.com/search?q=red%20shoes")], Ret tt).
Proof.
  destruct (proj1 (search_query_reaches_browser (quiet_host "linux" false) [])
              (cps "find for red shoes") eq_refl) as (_ & _ & _ & H & _).
  apply (H (cps "red%20shoes")).
  - vm_compute. discriminate.
  - vm_compute. reflexivity.
Defined.

(** ** Exceptions *)

Lemma dispatch_outcome : forall host command tr,
  (exists tr', _dispatch host command tr = (tr', Ret tt)) \/
  (_dispatch host command tr = (tr, Raise UnicodeEncodeError) /\
   exists q, classify command = Search q /\ quote q = None).
Proof.
  intros host command tr. rewrite dispatch_classify.
  destruct (classify command) as [q|url|target|] eqn:K; simpl.
  - destruct q as [|c z]; [left; eexists; reflexivity|].
    destruct (quote (c :: z)) as [e|] eqn:Q.
    + left. eexists. apply open_browser_run.
    + right. split; [reflexivity|]. exists (c :: z). auto.
  - left. eexists. apply open_browser_run.
  - left. unfold _open_system_settings.
    match goal with |- context [try_pass ?m tr] =>
      pose proof (try_pass_returns m tr) as R;
      destruct (try_pass m tr) as [tr' r] end.
    simpl in R. subst r. eexists. reflexivity.
  - left. eexists. reflexivity.
Qed.

Lemma for_each_dispatch_outcome : forall host l tr,
  snd (for_each l (_dispatch host) tr) = Ret tt \/
  (snd (for_each l (_dispatch host) tr) = Raise UnicodeEncodeError /\
   exists seg q, In seg l /\ classify seg = Search q /\ quote q = None).
Proof.
  intros host l. induction l as [|seg l IH]; intros tr; simpl.
  - left. reflexivity.
  - unfold bind.
    destruct (dispatch_outcome host seg tr) as [[tr' E]|[E (q & K & Q)]];
      rewrite E.
    + destruct (IH tr') as [R|[R (seg' & q & Hin & K & Q)]].
      * left. exact R.
      * right. split; [exact R|]. exists seg', q. auto.
    + right. split; [reflexivity|]. exists seg, q. auto.
Qed.

Lemma lstrip_incl : forall s c, In c (lstrip s) -> In c s.
Proof.
  intros s c H. destruct (lstrip_suffix s) as [pre E]. rewrite E.
  apply in_or_app. now right.
Qed.

Lemma strip_incl : forall s c, In c (strip s) -> In c s.
Proof.
  intros s c H. unfold strip, rstrip in H.
  apply in_rev in H. apply lstrip_incl in H. apply in_rev in H.
  now apply lstrip_incl.
Qed.

Lemma search_query_incl : forall command q c,
  classify command = Search q -> In c q -> In c command.
Proof.
  intros command q c K Hin. unfold classify in K.
  destruct (startswith command (cps "search") || startswith command (cps "find"))
    eqn:V.
  - inversion K. subst q. apply strip_incl in Hin.
    destruct (sub_search_prefix_spec command V) as [[pre E] _].
    rewrite E. apply in_or_app. now right.
  - destruct (startswith command (cps "open")); [|discriminate].
    destruct (contains _ (cps "setting") || contains _ (cps "control panel"));
      [discriminate|].
    destruct (first_site _ _); discriminate.
Qed.

(** C6: whatever an external call raises is caught where the call is
    made ([_open_browser], [_open_system_settings]) and [execute] goes
    on; a missing control-center binary on Linux is such a case.  But
    [execute] does not return normally on every string: the query of a
    search goes through [urllib.parse.quote] outside any [try], and on
    "search " followed by the lone surrogate U+DC80 the
    [UnicodeEncodeError] of the encoder leaves [execute].  That is the
    only exception that can leave it, and it cannot when no segment
    holds a surrogate. *)
Theorem execute_raises_on_unencodable_query : forall host tr,
  execute py_ucd host surrogate_search tr = (tr, Raise UnicodeEncodeError) /\
  (forall U T,
     snd (execute U host T tr) = Ret tt \/
     snd (execute U host T tr) = Raise UnicodeEncodeError) /\
  (forall U T,
     (forall seg, In seg (segments U T) -> existsb is_surrogate seg = false) ->
     snd (execute U host T tr) = Ret tt).
Proof.
  intros host tr. split; [|split].
  - rewrite execute_segments.
    assert (S1 : segments py_ucd surrogate_search = [surrogate_search])
      by (vm_compute; reflexivity).
    rewrite S1. simpl for_each. unfold bind.
    destruct (handle_search_run host surrogate_search tr eq_refl) as [_ D].
    rewrite D. vm_compute. reflexivity.
  - intros U T. rewrite execute_segments.
    destruct (for_each_dispatch_outcome host (segments U T) tr) as [R|[R _]];
      auto.
  - intros U T Hclean. rewrite execute_segments.
    destruct (for_each_dispatch_outcome host (segments U T) tr)
      as [R|[_ (seg & q & Hin & K & Q)]]; [exact R|].
    exfalso. apply quote_none in Q. apply existsb_exists in Q.
    destruct Q as (c & Hc & Hsur).
    assert (Hseg : existsb is_surrogate seg = true).
    { apply existsb_exists. exists c. split; [|exact Hsur].
      exact (search_query_incl seg q c K Hc). }
    rewrite (Hclean seg Hin) in Hseg. discriminate.
Qed.

Lemma execute_raises_on_unencodable_query_witness :
  snd (execute py_ucd (failing_host "linux" false)
         (cps "open sound settings and search cats") []) = Ret tt.
Proof.
  apply (proj2 (proj2 (execute_raises_on_unencodable_query
                         (failing_host "linux" false) []))).
  intros seg Hin. vm_compute in Hin.
  destruct Hin as [<-|[<-|[]]]; reflexivity.
Defined.

(** ** Letter case *)

Section CaseMap.
Variable U : UnicodeDB.
Variable f : codepoint -> codepoint.
Variable D : codepoint -> bool.

Hypothesis f_word : forall c, D c = true -> is_word U (f c) = is_word U c.
Hypothesis f_space : forall c, D c = true -> is_space (f c) = is_space c.
Hypothesis f_letter : forall c p,
  D c = true -> In p (cps "andthen") -> ci_eq (f c) p = ci_eq c p.

Lemma map_word_first : forall s,
  all_in D s -> word_first U (List.map f s) = word_first U s.
Proof.
  intros [|c s] H; simpl; [reflexivity|].
  inversion H. subst. now apply f_word.
Qed.

Lemma map_word_last : forall s prev,
  all_in D s -> word_last U prev (List.map f s) = word_last U prev s.
Proof.
  induction s as [|c s IH]; intros prev H; simpl; [reflexivity|].
  inversion H. subst. rewrite f_word by assumption. now apply IH.
Qed.

Lemma map_strip_lit_ci : forall p s,
  (forall a, In a p -> In a (cps "andthen")) -> all_in D s ->
  strip_lit_ci p (List.map f s) = option_map (map_pair f) (strip_lit_ci p s).
Proof.
  induction p as [|a p IH]; intros s Hp H; simpl; [reflexivity|].
  destruct s as [|b s]; simpl; [reflexivity|].
  inversion H. subst.
  rewrite f_letter by (auto; apply Hp; now left).
  destruct (ci_eq b a); [|reflexivity].
  rewrite IH by (auto; intros x Hx; apply Hp; now right).
  destruct (strip_lit_ci p s) as [[m r]|]; reflexivity.
Qed.

Lemma ok_app : forall a b, all_in D (a ++ b) -> all_in D a /\ all_in D b.
Proof. intros a b H. apply Forall_app in H. exact H. Qed.

Lemma map_match_word : forall w prev s,
  (forall a, In a w -> In a (cps "andthen")) -> all_in D s ->
  match_word U w prev (List.map f s) =
  option_map (map_pair f) (match_word U w prev s).
Proof.
  intros w prev s Hw H. unfold match_word, boundary.
  rewrite map_word_first by assumption.
  destruct (xorb prev (word_first U s)); [|reflexivity].
  rewrite map_strip_lit_ci by assumption.
  destruct (strip_lit_ci w s) as [[m r]|] eqn:E; [|reflexivity].
  destruct (strip_lit_ci_spec _ _ _ _ E) as (Hs & _ & _).
  rewrite Hs in H. destruct (ok_app _ _ H) as [Hm Hr].
  cbn [option_map map_pair fst snd].
  rewrite map_word_last, map_word_first by assumption.
  destruct (xorb (word_last U prev m) (word_first U r)); reflexivity.
Qed.

Lemma map_match_connective : forall prev s,
  all_in D s ->
  match_connective U prev (List.map f s) =
  option_map (map_pair f) (match_connective U prev s).
Proof.
  intros prev s H. unfold match_connective.
  rewrite !map_match_word; auto.
  - destruct (match_word U (cps "and") prev s) as [[m r]|]; reflexivity.
  - intros a Ha. simpl in Ha |- *. tauto.
  - intros a Ha. simpl in Ha |- *. tauto.
Qed.

Lemma map_split_scan : forall n prev s,
  all_in D s ->
  split_scan U n prev (List.map f s) =
  (List.map f (fst (split_scan U n prev s)),
   List.map (map_pair f) (snd (split_scan U n prev s))).
Proof.
  induction n as [|n IH]; intros prev s H; simpl; [reflexivity|].
  destruct s as [|c s']; [reflexivity|].
  cbn [List.map].
  pose proof (map_match_connective prev (c :: s') H) as MC.
  cbn [List.map] in MC. rewrite MC. clear MC.
  destruct (match_connective U prev (c :: s')) as [[m r]|] eqn:M.
  - destruct (match_connective_spec _ _ _ _ _ M) as (Hs & _).
    rewrite Hs in H. destruct (ok_app _ _ H) as [Hm Hr].
    cbn [option_map map_pair fst snd].
    rewrite map_word_last, IH by assumption.
    destruct (split_scan U n (word_last U prev m) r) as [p rest].
    reflexivity.
  - cbn [option_map]. inversion H. subst.
    rewrite f_word, IH by assumption.
    destruct (split_scan U n (is_word U c) s') as [p rest]. reflexivity.
Qed.

Lemma map_re_split : forall s,
  all_in D s -> re_split U (List.map f s) = List.map (List.map f) (re_split U s).
Proof.
  intros s H. unfold re_split, scan.
  rewrite length_map, map_split_scan by assumption.
  cbn [fst snd List.map]. rewrite !map_map. reflexivity.
Qed.

Lemma map_lstrip : forall s,
  all_in D s -> lstrip (List.map f s) = List.map f (lstrip s).
Proof.
  induction s as [|c s IH]; intros H; simpl; [reflexivity|].
  inversion H. subst. rewrite f_space by assumption.
  destruct (is_space c); [now apply IH|reflexivity].
Qed.

Lemma ok_lstrip : forall s, all_in D s -> all_in D (lstrip s).
Proof.
  intros s H. destruct (lstrip_suffix s) as [pre E].
  rewrite E in H. exact (proj2 (ok_app _ _ H)).
Qed.

Lemma map_strip : forall s,
  all_in D s -> strip (List.map f s) = List.map f (strip s).
Proof.
  intros s H. unfold strip, rstrip.
  rewrite map_lstrip by assumption.
  rewrite <- map_rev, map_lstrip, map_rev.
  - reflexivity.
  - apply Forall_rev. now apply ok_lstrip.
Qed.

Lemma ok_strip : forall s, all_in D s -> all_in D (strip s).
Proof.
  intros s H. unfold strip, rstrip.
  apply Forall_rev. apply ok_lstrip. apply Forall_rev. now apply ok_lstrip.
Qed.

(** The parts of a split are made of the characters of the text. *)
Lemma ok_re_split : forall s, all_in D s -> Forall (all_in D) (re_split U s).
Proof.
  intros s H. destruct (scan_sound U s) as [J _].
  unfold re_split. rewrite <- J in H. unfold join in H.
  destruct (ok_app _ _ H) as [H0 Hrest].
  constructor; [exact H0|].
  clear J H H0. induction (snd (scan U s)) as [|[m p] rest IH]; simpl.
  - constructor.
  - simpl in Hrest. destruct (ok_app _ _ Hrest) as [Hmp Hr].
    destruct (ok_app _ _ Hmp) as [_ Hp].
    constructor; [exact Hp|exact (IH Hr)].
Qed.

End CaseMap.

Lemma range_In : forall a n c,
  a <= c -> c < a + N.of_nat n -> In c (range a n).
Proof.
  intros a n c H1 H2. unfold range. apply in_map_iff.
  exists (N.to_nat (c - a)). split; [lia|]. apply in_seq. lia.
Qed.

Lemma str_eqb_eq : forall a b, str_eqb a b = true -> a = b.
Proof.
  induction a as [|x a IH]; intros [|y b] H; simpl in H;
    try discriminate; [reflexivity|].
  apply andb_prop in H. destruct H as [Hx Hab].
  apply N.eqb_eq in Hx. subst. now rewrite (IH _ Hab).
Qed.

Lemma in_tables_points : forall c, in_tables c = true -> In c table_points.
Proof.
  intros c H. unfold in_tables, is_surrogate in H. unfold table_points.
  rewrite !in_app_iff.
  destruct (N.ltb_spec c 384) as [L|L].
  - left. apply range_In; lia.
  - right. simpl in H.
    destruct (N.leb_spec 768 c) as [A|A], (N.leb_spec c 879) as [B|B];
      simpl in H.
    + left. apply range_In; lia.
    + right. apply andb_prop in H. destruct H as [H1 H2].
      apply N.leb_le in H1, H2. apply range_In; lia.
    + right. apply andb_prop in H. destruct H as [H1 H2].
      apply N.leb_le in H1, H2. apply range_In; lia.
    + right. apply andb_prop in H. destruct H as [H1 H2].
      apply N.leb_le in H1, H2. apply range_In; lia.
Qed.

Lemma case_table : forallb case_check table_points = true.
Proof. vm_compute. reflexivity. Qed.

(** On the code points of [simple_case], lower-casing is one code point
    for one, it keeps the word class, the white space and the letters of
    the connectives, and it changes nothing when done again. *)
Lemma simple_case_facts : forall c,
  simple_case c = true ->
  py_lower_char c = [py_lower1 c] /\
  is_word py_ucd (py_lower1 c) = is_word py_ucd c /\
  is_space (py_lower1 c) = is_space c /\
  (forall p, In p (cps "andthen") -> ci_eq (py_lower1 c) p = ci_eq c p) /\
  simple_case (py_lower1 c) = true /\
  py_lower1 (py_lower1 c) = py_lower1 c.
Proof.
  intros c H.
  assert (Hin : In c table_points).
  { apply in_tables_points. unfold simple_case in H.
    apply andb_prop in H. tauto. }
  pose proof (proj1 (forallb_forall _ _) case_table c Hin) as K.
  unfold case_check in K. rewrite H in K. cbn [implb] in K.
  repeat (apply andb_prop in K; destruct K as [K ?]).
  split; [now apply str_eqb_eq|]. split; [now apply eqb_prop|].
  split; [now apply eqb_prop|]. split.
  - intros p Hp. apply eqb_prop.
    match goal with
    | F : forallb _ _ = true |- _ => exact (proj1 (forallb_forall _ _) F p Hp)
    end.
  - split; [assumption|now apply N.eqb_eq].
Qed.

Lemma lower_simple_case : forall s,
  Forall (fun c => simple_case c = true) s ->
  lower py_ucd s = List.map py_lower1 s /\
  Forall (fun c => simple_case c = true) (List.map py_lower1 s) /\
  List.map py_lower1 (List.map py_lower1 s) = List.map py_lower1 s.
Proof.
  induction s as [|c s IH]; intros H.
  - repeat split. constructor.
  - inversion H. subst. destruct (IH H3) as (L & F & I).
    destruct (simple_case_facts c H2) as (E & _ & _ & _ & S & P).
    split; [|split].
    + simpl in L |- *. now rewrite E, L.
    + constructor; assumption.
    + simpl. now rewrite P, I.
Qed.

(** The segments of a transcription and of its lower-casing are the
    same, when lower-casing is code point for code point. *)
Lemma segments_lower : forall T,
  forallb simple_case T = true ->
  segments py_ucd (lower py_ucd T) = segments py_ucd T.
Proof.
  intros T H.
  assert (HT : Forall (fun c => simple_case c = true) T).
  { apply Forall_forall. exact (proj1 (forallb_forall _ _) H). }
  assert (Fw := fun c h => proj1 (proj2 (simple_case_facts c h))).
  assert (Fs := fun c h => proj1 (proj2 (proj2 (simple_case_facts c h)))).
  assert (Fl : forall c p, simple_case c = true -> In p (cps "andthen") ->
                 ci_eq (py_lower1 c) p = ci_eq c p).
  { intros c p h. exact (proj1 (proj2 (proj2 (proj2 (simple_case_facts c h)))) p). }
  rewrite !segments_filter.
  rewrite (proj1 (lower_simple_case T HT)).
  rewrite (map_re_split py_ucd py_lower1 simple_case Fw Fl T HT).
  rewrite map_map. f_equal.
  apply map_ext_in. intros part Hin.
  pose proof (ok_re_split py_ucd simple_case T HT) as Hparts.
  rewrite Forall_forall in Hparts. specialize (Hparts part Hin).
  rewrite (map_strip py_lower1 simple_case Fs part Hparts).
  pose proof (ok_strip simple_case part Hparts) as Hs.
  destruct (lower_simple_case (strip part) Hs) as (L & F & I).
  destruct (lower_simple_case _ F) as (L' & _ & _).
  rewrite L', I, L. reflexivity.
Qed.




(** * Further properties of the commander *)

(** ** What a command calls *)

Lemma settings_run : forall host target tr,
  _open_system_settings host target tr =
    (tr ++ settings_calls host target, Ret tt).
Proof.
  intros host target tr.
  unfold _open_system_settings, settings_calls, try_pass.
  unfold _win_settings, _mac_settings, _linux_settings, win_launch, external.
  destruct (contains (os_type host) (cps "windows")).
  - destruct (has_startfile host);
      match goal with |- context [fails ?h ?t ?c] => destruct (fails h t c) end;
      reflexivity.
  - destruct (contains (os_type host) (cps "darwin")).
    + match goal with |- context [fails ?h ?t ?c] => destruct (fails h t c) end;
        reflexivity.
    + destruct (contains (os_type host) (cps "linux")).
      * match goal with |- context [fails ?h ?t ?c] => destruct (fails h t c) end;
          reflexivity.
      * unfold ret. now rewrite app_nil_r.
Qed.

Lemma perform_run : forall host i tr,
  perform host i tr = (tr ++ intent_calls host i, intent_outcome i).
Proof.
  intros host [q|url|target|] tr; simpl.
  - destruct q as [|c z]; [unfold ret; now rewrite app_nil_r|].
    destruct (quote (c :: z)); [apply open_browser_run|now rewrite app_nil_r].
  - apply open_browser_run.
  - apply settings_run.
  - unfold ret. now rewrite app_nil_r.
Qed.

Lemma dispatch_run : forall host command tr,
  _dispatch host command tr =
    (tr ++ intent_calls host (classify command),
     intent_outcome (classify command)).
Proof. intros. rewrite dispatch_classify. apply perform_run. Qed.

Lemma for_each_run : forall host segs tr,
  for_each segs (_dispatch host) tr =
    (tr ++ segments_calls host segs, segments_outcome segs).
Proof.
  intros host segs. induction segs as [|seg segs IH]; intros tr; simpl.
  - unfold ret. now rewrite app_nil_r.
  - unfold bind. rewrite dispatch_run.
    destruct (intent_outcome (classify seg)) as [[]|e].
    + rewrite IH, app_assoc. reflexivity.
    + rewrite app_nil_r. reflexivity.
Qed.

Lemma execute_run : forall U host T tr,
  execute U host T tr =
    (tr ++ segments_calls host (segments U T), segments_outcome (segments U T)).
Proof. intros. rewrite execute_segments. apply for_each_run. Qed.

(** X1: what [execute] calls and whether it raises does not depend on
    which external calls fail: two hosts with the same system name and
    the same [os.startfile] see the same calls and the same outcome.  A
    browser or a settings pane that cannot be opened never keeps a later
    segment from running. *)
Theorem failures_change_nothing : forall U host1 host2 T tr,
  os_type host1 = os_type host2 ->
  has_startfile host1 = has_startfile host2 ->
  execute U host1 T tr = execute U host2 T tr.
Proof.
  intros U host1 host2 T tr Hos Hsf. rewrite !execute_run. f_equal. f_equal.
  induction (segments U T) as [|seg segs IH]; simpl; [reflexivity|].
  rewrite IH. f_equal.
  destruct (classify seg) as [q|url|target|]; simpl; try reflexivity.
  unfold settings_calls, win_launch. now rewrite Hos, Hsf.
Qed.

Lemma failures_change_nothing_witness :
  execute py_ucd (failing_host "linux" false)
    (cps "open youtube and open sound settings then find cats") [] =
  execute py_ucd (quiet_host "linux" false)
    (cps "open youtube and open sound settings then find cats") [].
Proof.
  apply (failures_change_nothing py_ucd (failing_host "linux" false)
           (quiet_host "linux" false) _ [] eq_refl eq_refl).
Defined.

Lemma intent_calls_length : forall host i,
  (List.length (intent_calls host i) <= 1)%nat.
Proof.
  intros host [q|url|target|]; simpl; try lia.
  - destruct q; simpl; [lia|]. destruct (quote _); simpl; lia.
  - unfold settings_calls.
    repeat match goal with
           | |- context [if ?b then _ else _] => destruct b
           end; simpl; lia.
Qed.

(** X2: [execute] only adds to the calls made so far, it makes at most
    one external call for each segment, and so never more calls than the
    transcription has parts. *)
Theorem at_most_one_call_per_segment : forall U host T tr,
  exists calls,
    fst (execute U host T tr) = tr ++ calls /\
    (List.length calls <= List.length (segments U T))%nat /\
    (List.length (segments U T) <= List.length (re_split U T))%nat.
Proof.
  intros U host T tr. exists (segments_calls host (segments U T)).
  rewrite execute_run. split; [reflexivity|]. split.
  - induction (segments U T) as [|seg segs IH]; simpl; [lia|].
    rewrite length_app. pose proof (intent_calls_length host (classify seg)).
    destruct (intent_outcome (classify seg)); simpl; lia.
  - rewrite segments_filter.
    etransitivity; [apply filter_length_le|]. now rewrite length_map.
Qed.

(** ** Settings on macOS and Linux *)

Lemma first_rule_in : forall rules default target,
  In (first_rule rules default target) (List.map snd rules ++ [default]).
Proof.
  intros rules default target. induction rules as [|[ks u] rules IH]; simpl.
  - now left.
  - destruct (any_in target ks); [now left|now right].
Qed.

Lemma first_match_in : forall (A : Type) (rules : list (list str * A)) default target,
  In (first_match rules default target) (List.map snd rules ++ [default]).
Proof.
  intros A rules default target. induction rules as [|[ks u] rules IH]; simpl.
  - now left.
  - destruct (any_in target ks); [now left|now right].
Qed.

Lemma mac_uri_first_match : forall target,
  mac_uri target =
  cps "x-apple.systempreferences:" ++ first_match mac_rules [] target.
Proof.
  intros target. unfold mac_uri, mac_rules, first_match.
  repeat match goal with
         | |- context [if ?b then _ else _] => destruct b; try reflexivity
         end.
Qed.

Lemma linux_cmd_first_match : forall target,
  linux_cmd target =
  cps "gnome-control-center" :: first_match linux_rules [] target.
Proof.
  intros target. unfold linux_cmd, linux_rules, first_match.
  repeat match goal with
         | |- context [if ?b then _ else _] => destruct b; try reflexivity
         end.
Qed.

Lemma settings_calls_launch : forall host target c,
  In c (settings_calls host target) -> In c launch_calls.
Proof.
  intros host target c H. unfold settings_calls in H. unfold launch_calls.
  rewrite !in_app_iff.
  destruct (contains (os_type host) (cps "windows")).
  - destruct H as [<-|[]]. unfold win_launch.
    pose proof (first_rule_in win_rules (cps "ms-settings:") target) as I.
    rewrite <- win_uri_first_rule in I. fold win_uris in I.
    destruct (has_startfile host).
    + left. now apply in_map.
    + right. left.
      exact (in_map (fun u => subprocess_run [cps "start"; u] true) _ _ I).
  - destruct (contains (os_type host) (cps "darwin")).
    + destruct H as [<-|[]]. right. right. left.
      rewrite mac_uri_first_match.
      apply (in_map (fun u => subprocess_run [cps "open"; u] false)).
      unfold mac_uris.
      pose proof (first_match_in _ mac_rules [] target) as I.
      revert I. generalize (first_match mac_rules [] target). intros x I.
      apply in_app_iff in I. apply in_app_iff. destruct I as [I|[<-|[]]].
      * left. apply in_map_iff in I. destruct I as ([ks u] & E & I).
        simpl in E. rewrite <- E. apply in_map_iff. exists (ks, u). auto.
      * right. left. now rewrite app_nil_r.
    + destruct (contains (os_type host) (cps "linux")); [|destruct H].
      destruct H as [<-|[]]. right. right. right.
      rewrite linux_cmd_first_match.
      apply (in_map (fun c => subprocess_run c false)).
      unfold linux_cmds.
      pose proof (first_match_in _ linux_rules [] target) as I.
      revert I. generalize (first_match linux_rules [] target). intros x I.
      apply in_app_iff in I. apply in_app_iff. destruct I as [I|[<-|[]]].
      * left. apply in_map_iff in I. destruct I as ([ks u] & E & I).
        simpl in E. rewrite <- E. apply in_map_iff. exists (ks, u). auto.
      * right. now left.
Qed.

Lemma first_site_in : forall sites target url,
  first_site sites target = Some url -> In url (List.map snd sites).
Proof.
  intros sites target url. induction sites as [|[k u] sites IH]; simpl.
  - discriminate.
  - destruct (contains target k).
    + intros H. inversion H. now left.
    + intros H. right. now apply IH.
Qed.

Lemma classify_site_in : forall command url,
  classify command = OpenSite url -> In url (List.map snd site_whitelist).
Proof.
  intros command url K. unfold classify in K.
  destruct (startswith command (cps "search") || startswith command (cps "find"));
    [discriminate|].
  destruct (startswith command (cps "open")); [|discriminate].
  destruct (contains _ (cps "setting") || contains _ (cps "control panel"));
    [discriminate|].
  destruct (first_site site_whitelist (strip (sub_open_prefix command)))
    as [u|] eqn:F; [|discriminate].
  inversion K. subst u. exact (first_site_in _ _ _ F).
Qed.

Lemma intent_calls_vetted : forall host command c,
  In c (intent_calls host (classify command)) -> vetted_call c.
Proof.
  intros host command c H.
  destruct (classify command) as [q|url|target|] eqn:K; simpl in H.
  - destruct q as [|a z]; [destruct H|].
    destruct (quote (a :: z)) as [e|] eqn:Q; [|destruct H].
    destruct H as [<-|[]]. simpl. right. exists (a :: z), e. auto.
  - destruct H as [<-|[]]. simpl. left. exact (classify_site_in _ _ K).
  - pose proof (settings_calls_launch host target c H) as L.
    unfold settings_calls, win_launch in H.
    repeat match type of H with
           | context [if ?b then _ else _] => destruct b
           end;
      try (destruct H as [<-|[]]; exact L); destruct H.
  - destruct H.
Qed.

(** X3: no text of the transcription reaches [os.startfile] or
    [subprocess.run]: whatever is said, such a call is one of the
    twenty-six launches of [launch_calls], built from constants of the
    program; and the browser is only sent to a site of the directory or
    to the Google search URL followed by a percent-encoded query. *)
Theorem only_vetted_calls : forall U host T tr,
  exists calls,
    fst (execute U host T tr) = tr ++ calls /\
    (forall c, In c calls -> vetted_call c) /\
    List.length launch_calls = 26%nat.
Proof.
  intros U host T tr. exists (segments_calls host (segments U T)).
  rewrite execute_run. split; [reflexivity|]. split; [|reflexivity].
  induction (segments U T) as [|seg segs IH]; simpl; intros c H; [destruct H|].
  apply in_app_iff in H. destruct H as [H|H].
  - exact (intent_calls_vetted host seg c H).
  - destruct (intent_outcome (classify seg)); [now apply IH|destruct H].
Qed.

Lemma dispatch_open_settings : forall host command tr,
  startswith command (cps "open") = true ->
  contains (strip (sub_open_prefix command)) (cps "setting")
  || contains (strip (sub_open_prefix command)) (cps "control panel") = true ->
  classify command = OpenSettings (strip (sub_open_prefix command)) /\
  _dispatch host command tr =
    (tr ++ settings_calls host (strip (sub_open_prefix command)), Ret tt).
Proof.
  intros host command tr Hopen Hset.
  assert (K : classify command = OpenSettings (strip (sub_open_prefix command))).
  { unfold classify. now rewrite (open_not_search _ Hopen), Hopen, Hset. }
  split; [exact K|]. rewrite dispatch_run, K. reflexivity.
Qed.

(** X4: settings come before sites.  An "open" command whose target has
    "setting" or "control panel" in it never opens a browser tab, even
    when the name of a site occurs in it: it makes at most one call, a
    settings launch, it returns whether or not that launch fails, and on
    a host whose system name has none of "windows", "darwin" and "linux"
    in it, it does nothing at all. *)
Theorem settings_come_before_sites : forall host command tr,
  startswith command (cps "open") = true ->
  contains (strip (sub_open_prefix command)) (cps "setting")
  || contains (strip (sub_open_prefix command)) (cps "control panel") = true ->
  exists calls,
    _dispatch host command tr = (tr ++ calls, Ret tt) /\
    (List.length calls <= 1)%nat /\
    (forall url, ~ In (open_new_tab url) calls) /\
    (contains (os_type host) (cps "windows") = false ->
     contains (os_type host) (cps "darwin") = false ->
     contains (os_type host) (cps "linux") = false ->
     calls = []).
Proof.
  intros host command tr Hopen Hset.
  destruct (dispatch_open_settings host command tr Hopen Hset) as [K D].
  exists (settings_calls host (strip (sub_open_prefix command))).
  split; [exact D|]. split; [|split].
  - exact (intent_calls_length host (OpenSettings _)).
  - intros url Hin. unfold settings_calls, win_launch in Hin.
    repeat match type of Hin with
           | context [if ?b then _ else _] => destruct b
           end;
      try (destruct Hin as [Hin|[]]; discriminate); destruct Hin.
  - intros Hw Hd Hl. unfold settings_calls. now rewrite Hw, Hd, Hl.
Qed.

Lemma settings_come_before_sites_witness :
  exists calls,
    _dispatch (failing_host "windows" true) (cps "open youtube settings") [] =
      ([] ++ calls, Ret tt) /\
    (List.length calls <= 1)%nat /\
    (forall url, ~ In (open_new_tab url) calls) /\
    (contains (os_type (failing_host "windows" true)) (cps "windows") = false ->
     contains (os_type (failing_host "windows" true)) (cps "darwin") = false ->
     contains (os_type (failing_host "windows" true)) (cps "linux") = false ->
     calls = []).
Proof.
  apply (settings_come_before_sites (failing_host "windows" true)
           (cps "open youtube settings") [] eq_refl eq_refl).
Defined.

(** X5: on a host whose system name has "darwin" and not "windows" in
    it, a settings command runs [open] on the preferences URI followed by
    the pane of the first macOS rule, top to bottom, one of whose
    keywords occurs in the target, and on the bare URI when there is
    none; it is one call without a shell, and its failure is not seen. *)
Theorem mac_settings_first_rule : forall host command tr,
  contains (os_type host) (cps "windows") = false ->
  contains (os_type host) (cps "darwin") = true ->
  startswith command (cps "open") = true ->
  contains (strip (sub_open_prefix command)) (cps "setting")
  || contains (strip (sub_open_prefix command)) (cps "control panel") = true ->
  _dispatch host command tr =
    (tr ++ [subprocess_run
              [cps "open";
               cps "x-apple.systempreferences:" ++
               first_match mac_rules [] (strip (sub_open_prefix command))]
              false],
     Ret tt).
Proof.
  intros host command tr Hw Hd Hopen Hset.
  destruct (dispatch_open_settings host command tr Hopen Hset) as [_ D].
  rewrite D. unfold settings_calls. rewrite Hw, Hd, mac_uri_first_match.
  reflexivity.
Qed.

Lemma mac_settings_first_rule_witness :
  _dispatch (failing_host "darwin" false) (cps "open wifi settings") [] =
    ([subprocess_run
        [cps "open";
         cps "x-apple.systempreferences:com.apple.preference.network"] false],
     Ret tt).
Proof.
  apply (mac_settings_first_rule (failing_host "darwin" false)
           (cps "open wifi settings") [] eq_refl eq_refl eq_refl eq_refl).
Defined.

(** X6: on a host whose system name has "linux" and neither "windows"
    nor "darwin" in it, a settings command runs gnome-control-center with
    the panel of the first Linux rule one of whose keywords occurs in the
    target, and without an argument when there is none; it is one call
    without a shell, and a missing binary is not seen. *)
Theorem linux_settings_first_rule : forall host command tr,
  contains (os_type host) (cps "windows") = false ->
  contains (os_type host) (cps "darwin") = false ->
  contains (os_type host) (cps "linux") = true ->
  startswith command (cps "open") = true ->
  contains (strip (sub_open_prefix command)) (cps "setting")
  || contains (strip (sub_open_prefix command)) (cps "control panel") = true ->
  _dispatch host command tr =
    (tr ++ [subprocess_run
              (cps "gnome-control-center" ::
               first_match linux_rules [] (strip (sub_open_prefix command)))
              false],
     Ret tt).
Proof.
  intros host command tr Hw Hd Hl Hopen Hset.
  destruct (dispatch_open_settings host command tr Hopen Hset) as [_ D].
  rewrite D. unfold settings_calls. rewrite Hw, Hd, Hl, linux_cmd_first_match.
  reflexivity.
Qed.

Lemma linux_settings_first_rule_witness :
  _dispatch (failing_host "linux" false) (cps "open the control panel") [] =
    ([subprocess_run [cps "gnome-control-center"] false], Ret tt).
Proof.
  apply (linux_settings_first_rule (failing_host "linux" false)
           (cps "open the control panel") [] eq_refl eq_refl eq_refl
           eq_refl eq_refl).
Defined.

(** ** More on searching *)

Lemma lstrip_nil_spaces : forall s, lstrip s = [] -> forallb is_space s = true.
Proof.
  induction s as [|c s IH]; simpl; [reflexivity|].
  destruct (is_space c); [exact IH|discriminate].
Qed.

Lemma spaces1_nil : forall r,
  spaces1 r = Some [] -> r <> [] /\ forallb is_space r = true.
Proof.
  intros [|c s] H; simpl in H; [discriminate|].
  destruct (is_space c) eqn:E; [|discriminate].
  inversion H as [H1]. split; [congruence|].
  simpl. rewrite E. now apply lstrip_nil_spaces.
Qed.

Lemma trimmed_no_trailing_space : forall pre r,
  strip (pre ++ r) = pre ++ r -> r <> [] -> forallb is_space r = true -> False.
Proof.
  intros pre r Htrim Hne Hsp. destruct (strip_fixed _ Htrim) as [_ R].
  rewrite rev_app_distr in R.
  destruct (rev r) as [|a y] eqn:E.
  - apply (f_equal (@rev _)) in E. rewrite rev_involutive in E. now subst.
  - assert (Ha : is_space a = true).
    { rewrite forallb_forall in Hsp. apply Hsp. apply in_rev.
      rewrite E. now left. }
    simpl in R. rewrite Ha in R.
    pose proof (lstrip_length (y ++ rev pre)) as L.
    rewrite R in L. simpl in L. lia.
Qed.

(** When the pattern of [_handle_search] leaves nothing, the command
    ends in white space. *)
Lemma sub_search_prefix_nil : forall command,
  startswith command (cps "search") || startswith command (cps "find") = true ->
  sub_search_prefix command = [] ->
  exists pre r, command = pre ++ r /\ r <> [] /\ forallb is_space r = true.
Proof.
  intros command Hverb. unfold sub_search_prefix.
  destruct (match strip_lit (cps "search") command with
            | Some r => Some r
            | None => strip_lit (cps "find") command
            end) as [r|] eqn:V.
  2:{ intros ->. discriminate. }
  assert (Hr : exists w, command = w ++ r).
  { destruct (strip_lit (cps "search") command) as [r'|] eqn:V1.
    - inversion V. subst r'. eexists. exact (strip_lit_spec _ _ _ V1).
    - eexists. exact (strip_lit_spec _ _ _ V). }
  destruct Hr as [w Hw].
  destruct (spaces1 r) as [r1|] eqn:S1.
  2:{ intros ->. discriminate. }
  destruct (strip_lit (cps "for") r1) as [r2|] eqn:F.
  - destruct (spaces1 r2) as [r3|] eqn:S3.
    + intros ->. destruct (spaces1_nil _ S3) as [Hne Hsp].
      destruct (spaces1_spec _ _ S1) as [[pre1 E1] _].
      exists (w ++ pre1 ++ cps "for"), r2. split; [|auto].
      rewrite Hw, E1, (strip_lit_spec _ _ _ F), <- !app_assoc. reflexivity.
    + intros ->. discriminate.
  - intros ->. destruct (spaces1_nil _ S1) as [Hne Hsp].
    exists w, r. auto.
Qed.

Lemma spaces1_none : forall r,
  (forall c, In c r -> is_space c = false) -> spaces1 r = None.
Proof.
  intros [|c s] H; simpl; [reflexivity|].
  now rewrite (H c (or_introl eq_refl)).
Qed.

(** A trimmed command that starts with "search" or "find" always has a
    query. *)
Lemma trimmed_search_run : forall host command tr,
  startswith command (cps "search") || startswith command (cps "find") = true ->
  strip command = command ->
  sub_search_prefix command <> [] /\
  (existsb is_surrogate command = false ->
   exists q,
     quote (sub_search_prefix command) = Some q /\
     _dispatch host command tr =
       (tr ++ [open_new_tab (cps "https://www.google.com/search?q=" ++ q)],
        Ret tt)) /\
  ((forall c, In c command -> is_space c = false) ->
   sub_search_prefix command = command).
Proof.
  intros host command tr Hverb Htrim.
  assert (Hne : sub_search_prefix command <> []).
  { intros E. destruct (sub_search_prefix_nil command Hverb E)
      as (pre & r & Hc & Hr & Hsp).
    rewrite Hc in Htrim. exact (trimmed_no_trailing_space pre r Htrim Hr Hsp). }
  split; [exact Hne|]. split.
  - intros Hsur.
    destruct (sub_search_prefix_spec command Hverb) as [[pre Hsuf] Hhead].
    destruct (handle_search_run host command tr Hverb) as [_ D].
    assert (Hq : strip (sub_search_prefix command) = sub_search_prefix command).
    { destruct (sub_search_prefix command) as [|c z] eqn:E; [reflexivity|].
      rewrite Hsuf in Htrim.
      exact (strip_suffix_fixed pre c z Htrim (Hhead c z eq_refl)). }
    rewrite Hq in D.
    destruct (quote (sub_search_prefix command)) as [q|] eqn:Q.
    + exists q. split; [reflexivity|]. rewrite D.
      destruct (sub_search_prefix command); [congruence|].
      now rewrite Q.
    + exfalso. apply quote_none in Q. apply existsb_exists in Q.
      destruct Q as (c & Hin & Hc).
      assert (Hex : existsb is_surrogate command = true).
      { apply existsb_exists. exists c. split; [|exact Hc].
        rewrite Hsuf. apply in_or_app. now right. }
      congruence.
  - intros Hnosp. unfold sub_search_prefix.
    destruct (match strip_lit (cps "search") command with
              | Some r => Some r
              | None => strip_lit (cps "find") command
              end) as [r|] eqn:V; [|reflexivity].
    assert (Hr : exists w, command = w ++ r).
    { destruct (strip_lit (cps "search") command) as [r'|] eqn:V1.
      - inversion V. subst r'. eexists. exact (strip_lit_spec _ _ _ V1).
      - eexists. exact (strip_lit_spec _ _ _ V). }
    destruct Hr as [w Hw]. rewrite spaces1_none; [reflexivity|].
    intros c Hin. apply Hnosp. rewrite Hw. apply in_or_app. now right.
Qed.

(** X7: a segment, being trimmed, always has a query: for a trimmed
    command that starts with "search" or "find" the remainder behind the
    pattern is never empty, so that the guard on the empty query never
    holds back a search and, when the command holds no surrogate, the
    browser is called exactly once.  In particular a command without any
    white space is its own query: "search" alone is searched for as
    "search". *)
Theorem trimmed_search_always_searches : forall host command tr,
  startswith command (cps "search") || startswith command (cps "find") = true ->
  strip command = command ->
  sub_search_prefix command <> [] /\
  (existsb is_surrogate command = false ->
   exists q,
     quote (sub_search_prefix command) = Some q /\
     _dispatch host command tr =
       (tr ++ [open_new_tab (cps "https://www.google.com/search?q=" ++ q)],
        Ret tt)) /\
  ((forall c, In c command -> is_space c = false) ->
   sub_search_prefix command = command).
Proof. exact trimmed_search_run. Qed.

Lemma trimmed_search_always_searches_witness :
  sub_search_prefix (cps "search") = cps "search" /\
  exists q,
    quote (sub_search_prefix (cps "search")) = Some q /\
    _dispatch (quiet_host "linux" false) (cps "search") [] =
      ([] ++ [open_new_tab (cps "https://www.google.com/search?q=" ++ q)],
       Ret tt).
Proof.
  destruct (trimmed_search_always_searches (quiet_host "linux" false)
              (cps "search") [] eq_refl eq_refl) as (_ & H & I).
  split.
  - apply I. intros c Hin. simpl in Hin.
    repeat (destruct Hin as [<-|Hin]; [reflexivity|]). destruct Hin.
  - apply H. reflexivity.
Defined.

(** ** Percent-encoding *)

From Stdlib Require Import ZArith.
Local Open Scope N_scope.

Ltac divmod_lia := zify; Z.to_euclidean_division_equations; lia.

Lemma hex_digit_inj : forall d e, hex_digit d = hex_digit e -> d = e.
Proof.
  intros d e. unfold hex_digit.
  destruct (N.ltb_spec d 10), (N.ltb_spec e 10); lia.
Qed.

Lemma hex_digit_safe : forall d, d < 16 -> is_safe_byte (hex_digit d) = true.
Proof.
  intros d H. unfold hex_digit, is_safe_byte.
  destruct (N.ltb_spec d 10).
  - replace ((48 <=? 48 + d) && (48 + d <=? 57)) with true; [reflexivity|].
    symmetry. apply andb_true_intro. split; apply N.leb_le; lia.
  - replace ((65 <=? 55 + d) && (55 + d <=? 90)) with true;
      [now rewrite orb_true_r|].
    symmetry. apply andb_true_intro. split; apply N.leb_le; lia.
Qed.

Lemma quote_byte_prefix : forall a b x y,
  quote_byte a ++ x = quote_byte b ++ y -> a = b /\ x = y.
Proof.
  intros a b x y. unfold quote_byte.
  destruct (is_safe_byte a) eqn:Sa, (is_safe_byte b) eqn:Sb; simpl;
    intros H; inversion H; subst.
  - auto.
  - discriminate.
  - discriminate.
  - split; [|reflexivity].
    match goal with
    | H1 : hex_digit _ = hex_digit _, H2 : hex_digit _ = hex_digit _ |- _ =>
        apply hex_digit_inj in H1; apply hex_digit_inj in H2
    end.
    divmod_lia.
Qed.

Lemma quote_bytes_inj : forall l1 l2,
  flat_map quote_byte l1 = flat_map quote_byte l2 -> l1 = l2.
Proof.
  induction l1 as [|a l1 IH]; intros [|b l2] H; simpl in H.
  - reflexivity.
  - unfold quote_byte in H. destruct (is_safe_byte b); discriminate.
  - unfold quote_byte in H. destruct (is_safe_byte a); discriminate.
  - destruct (quote_byte_prefix _ _ _ _ H) as [-> E]. now rewrite (IH _ E).
Qed.

Lemma utf8_char_prefix : forall a b ba bb x y,
  utf8_char a = Some ba -> utf8_char b = Some bb ->
  ba ++ x = bb ++ y -> a = b /\ x = y.
Proof.
  intros a b ba bb x y Ha Hb H. unfold utf8_char in Ha, Hb.
  destruct (N.ltb_spec a 128); [|destruct (N.ltb_spec a 2048);
    [|destruct (is_surrogate a); [discriminate|destruct (N.ltb_spec a 65536)]]];
  (destruct (N.ltb_spec b 128); [|destruct (N.ltb_spec b 2048);
    [|destruct (is_surrogate b); [discriminate|destruct (N.ltb_spec b 65536)]]]);
  (match type of Ha with
   | Some ?l = Some _ => assert (Ea : ba = l) by congruence
   end);
  (match type of Hb with
   | Some ?l = Some _ => assert (Eb : bb = l) by congruence
   end);
  subst ba bb; clear Ha Hb; cbn [app] in H;
  repeat match type of H with
         | context [N.add ?u ?v] =>
             let z := fresh "z" in remember (N.add u v) as z
         end;
  repeat match goal with
         | E : _ :: _ = _ :: _ |- _ => injection E; clear E; intros
         end;
  first [ exfalso; divmod_lia | split; [divmod_lia|congruence] ].
Qed.

Lemma utf8_encode_inj : forall s1 s2 bs,
  utf8_encode s1 = Some bs -> utf8_encode s2 = Some bs -> s1 = s2.
Proof.
  induction s1 as [|a s1 IH]; intros [|b s2] bs H1 H2; simpl in H1, H2.
  - reflexivity.
  - inversion H1. subst bs.
    destruct (utf8_char b) as [bb|] eqn:B; [|discriminate].
    destruct (utf8_encode s2); [|discriminate]. inversion H2.
    unfold utf8_char in B.
    repeat match type of B with
           | context [if ?c then _ else _] => destruct c
           end; inversion B; subst; discriminate.
  - inversion H2. subst bs.
    destruct (utf8_char a) as [ba|] eqn:A; [|discriminate].
    destruct (utf8_encode s1); [|discriminate]. inversion H1.
    unfold utf8_char in A.
    repeat match type of A with
           | context [if ?c then _ else _] => destruct c
           end; inversion A; subst; discriminate.
  - destruct (utf8_char a) as [ba|] eqn:A; [|discriminate].
    destruct (utf8_encode s1) as [r1|] eqn:E1; [|discriminate].
    destruct (utf8_char b) as [bb|] eqn:B; [|discriminate].
    destruct (utf8_encode s2) as [r2|] eqn:E2; [|discriminate].
    inversion H1. subst bs. inversion H2 as [H3]. symmetry in H3.
    destruct (utf8_char_prefix _ _ _ _ _ _ A B H3) as [-> ->].
    now rewrite (IH s2 r2 eq_refl E2).
Qed.

Lemma utf8_char_bytes : forall c bs,
  c < 1114112 -> utf8_char c = Some bs -> Forall (fun b => b < 256) bs.
Proof.
  intros c bs Hc H. unfold utf8_char in H.
  destruct (N.ltb_spec c 128); [|destruct (N.ltb_spec c 2048);
    [|destruct (is_surrogate c); [discriminate|destruct (N.ltb_spec c 65536)]]];
  (match type of H with
   | Some ?l = Some _ => assert (E : bs = l) by congruence
   end);
  subst bs; repeat (apply Forall_cons; [divmod_lia|]); apply Forall_nil.
Qed.

Lemma quote_byte_safe : forall b,
  b < 256 -> forallb url_safe (quote_byte b) = true.
Proof.
  intros b Hb. unfold quote_byte, url_safe.
  destruct (is_safe_byte b) eqn:S; simpl.
  - now rewrite S.
  - rewrite !hex_digit_safe by divmod_lia. reflexivity.
Qed.

Lemma utf8_safe_id : forall s,
  forallb is_safe_byte s = true -> utf8_encode s = Some s.
Proof.
  induction s as [|c s IH]; simpl; intros H; [reflexivity|].
  apply andb_prop in H. destruct H as [Hc Hs]. rewrite (IH Hs).
  assert (L : c < 128).
  { unfold is_safe_byte in Hc.
    repeat (rewrite ?orb_true_iff, ?andb_true_iff in Hc).
    rewrite !N.leb_le, !N.eqb_eq in Hc. lia. }
  unfold utf8_char. apply N.ltb_lt in L. now rewrite L.
Qed.

(** X8: the percent-encoding that builds the search URL loses nothing
    and lets nothing through.  Two queries with the same encoding are
    the same query; a query of Unicode code points is written in
    letters, digits, [_.-~/] and [%] only, so that no [&], [#], space or
    quotation mark of the query reaches the URL as such; and a query
    that is made of the unreserved characters is left as it is. *)
Theorem quote_is_faithful : forall s1 s2 q,
  quote s1 = Some q ->
  (quote s2 = Some q -> s1 = s2) /\
  ((forall c, In c s1 -> c < 1114112) -> forallb url_safe q = true) /\
  (forallb is_safe_byte s1 = true -> q = s1).
Proof.
  intros s1 s2 q H1. unfold quote in H1.
  destruct (utf8_encode s1) as [b1|] eqn:E1; [|discriminate].
  inversion H1. subst q. clear H1. split; [|split].
  - intros H2. unfold quote in H2.
    destruct (utf8_encode s2) as [b2|] eqn:E2; [|discriminate].
    inversion H2 as [H3]. apply quote_bytes_inj in H3. subst b2.
    exact (utf8_encode_inj _ _ _ E1 E2).
  - intros Hvalid.
    assert (Hb : Forall (fun b => b < 256) b1).
    { revert b1 E1 Hvalid. induction s1 as [|c s IH]; intros b1 E1 Hvalid;
        simpl in E1.
      - inversion E1. constructor.
      - destruct (utf8_char c) as [bc|] eqn:C; [|discriminate].
        destruct (utf8_encode s) as [bs|] eqn:S; [|discriminate].
        inversion E1. apply Forall_app. split.
        + apply (utf8_char_bytes c bc); [apply Hvalid; now left|exact C].
        + apply (IH bs eq_refl). intros x Hx. apply Hvalid. now right. }
    clear E1. induction Hb as [|b l Hlt Hl IH]; simpl; [reflexivity|].
    rewrite forallb_app, IH, (quote_byte_safe b Hlt). reflexivity.
  - intros Hsafe. rewrite (utf8_safe_id s1 Hsafe) in E1. inversion E1. subst b1.
    clear E1. induction s1 as [|c s IH]; simpl; [reflexivity|].
    simpl in Hsafe. apply andb_prop in Hsafe. destruct Hsafe as [Hc Hs].
    unfold quote_byte at 1. rewrite Hc. simpl. now rewrite (IH Hs).
Qed.

Lemma quote_is_faithful_witness :
  forallb url_safe (cps "fish%20%26%20chips%3F") = true.
Proof.
  apply (proj1 (proj2 (quote_is_faithful (cps "fish & chips?")
                         (cps "fish & chips?") (cps "fish%20%26%20chips%3F")
                         eq_refl))).
  intros c Hin. simpl in Hin.
  repeat (destruct Hin as [<-|Hin]; [reflexivity|]). destruct Hin.
Defined.

(** ** Commands in sequence *)

Lemma strip_lit_ci_app : forall p s m r t,
  strip_lit_ci p s = Some (m, r) -> strip_lit_ci p (s ++ t) = Some (m, r ++ t).
Proof.
  induction p as [|a p IH]; intros s m r t H; simpl in H.
  - inversion H. reflexivity.
  - destruct s as [|b s]; [discriminate|]. simpl.
    destruct (ci_eq b a); [|discriminate].
    destruct (strip_lit_ci p s) as [[m' r']|] eqn:E; [|discriminate].
    inversion H. subst. now rewrite (IH _ _ _ t E).
Qed.

Lemma strip_lit_ci_app_none : forall p s t,
  (forall a, In a p -> In a (cps "andthen")) ->
  match t with
  | [] => True
  | c :: _ => forall a, In a (cps "andthen") -> ci_eq c a = false
  end ->
  strip_lit_ci p s = None -> strip_lit_ci p (s ++ t) = None.
Proof.
  induction p as [|a p IH]; intros s t Hp Ht H; simpl in H; [discriminate|].
  destruct s as [|b s]; simpl.
  - destruct t as [|c t]; [reflexivity|].
    rewrite (Ht a) by (apply Hp; now left). reflexivity.
  - destruct (ci_eq b a); [|reflexivity].
    destruct (strip_lit_ci p s) as [[m r]|] eqn:E; [discriminate|].
    rewrite (IH s t); auto. intros x Hx. apply Hp. now right.
Qed.

Lemma word_first_inert : forall U r t,
  inert U t -> word_first U (r ++ t) = word_first U r.
Proof.
  intros U [|c r] t Ht; [|reflexivity].
  destruct t as [|c t]; [reflexivity|]. simpl. exact (proj1 Ht).
Qed.

Lemma match_word_app : forall U w prev s t,
  (forall a, In a w -> In a (cps "andthen")) -> inert U t ->
  match_word U w prev (s ++ t) =
  match match_word U w prev s with
  | Some (m, r) => Some (m, r ++ t)
  | None => None
  end.
Proof.
  intros U w prev s t Hw Ht. unfold match_word, boundary.
  rewrite (word_first_inert U s t Ht).
  destruct (xorb prev (word_first U s)); [|reflexivity].
  destruct (strip_lit_ci w s) as [[m r]|] eqn:E.
  - rewrite (strip_lit_ci_app _ _ _ _ t E), (word_first_inert U r t Ht).
    destruct (xorb (word_last U prev m) (word_first U r)); reflexivity.
  - rewrite (strip_lit_ci_app_none w s t Hw); [reflexivity| |exact E].
    destruct t as [|c t]; [exact I|exact (proj2 Ht)].
Qed.

Lemma match_connective_app : forall U prev s t,
  inert U t ->
  match_connective U prev (s ++ t) =
  match match_connective U prev s with
  | Some (m, r) => Some (m, r ++ t)
  | None => None
  end.
Proof.
  intros U prev s t Ht. unfold match_connective.
  rewrite !match_word_app by (auto; intros a Ha; simpl in Ha |- *; tauto).
  destruct (match_word U (cps "and") prev s) as [[m r]|]; reflexivity.
Qed.

(** The scan of a text followed by an inert text is the scan of the one
    glued to the scan of the other. *)
Lemma split_scan_app : forall U t n2 n1 n prev a,
  inert U t ->
  (List.length a < n1)%nat -> (List.length (a ++ t) < n)%nat ->
  (List.length t < n2)%nat ->
  split_scan U n prev (a ++ t) =
  glue (fst (split_scan U n1 prev a)) (snd (split_scan U n1 prev a))
       (split_scan U n2 (word_last U prev a) t).
Proof.
  intros U t n2 n1. induction n1 as [|n1 IH]; intros n prev a Ht H1 H H2; [lia|].
  destruct n as [|n]; [lia|].
  destruct a as [|c a'].
  - change ([] ++ t) with t. change (word_last U prev []) with prev.
    change (split_scan U (S n1) prev []) with (@nil codepoint, @nil (str * str)).
    cbn [fst snd glue app].
    rewrite (split_scan_fuel U (S n) n2 prev t) by (simpl in H; lia).
    now destruct (split_scan U n2 prev t).
  - cbn [split_scan app]. change (c :: a' ++ t) with ((c :: a') ++ t).
    rewrite (match_connective_app U prev (c :: a') t Ht).
    destruct (match_connective U prev (c :: a')) as [[m r]|] eqn:M.
    + destruct (match_connective_spec _ _ _ _ _ M) as (Hs & _ & Hl & _).
      assert (Hlen : (List.length (c :: a') = List.length m + List.length r)%nat).
      { rewrite Hs. apply length_app. }
      simpl in H, H1, Hlen. rewrite length_app in H.
      rewrite (IH n (word_last U prev m) r Ht) by (rewrite ?length_app; lia).
      rewrite Hs, word_last_app.
      destruct (split_scan U n1 (word_last U prev m) r) as [p rest].
      cbn [fst snd glue].
      destruct (glue p rest
                  (split_scan U n2 (word_last U (word_last U prev m) r) t));
        reflexivity.
    + simpl in H, H1.
      rewrite (IH n (is_word U c) a' Ht) by lia.
      simpl word_last.
      destruct (split_scan U n1 (is_word U c) a') as [p rest].
      cbn [fst snd]. destruct rest as [|[m0 p1] rest]; reflexivity.
Qed.

Lemma connective_letters : forall U w,
  forallb (is_word U) (cps "andthenANDTHEN") = true ->
  is_connective w = true ->
  w <> [] /\ word_first U w = true /\
  (forall prev, word_last U prev w = true).
Proof.
  intros U w HU Hw.
  assert (L : forall c p, In p (cps "andthen") -> ci_eq c p = true ->
                          is_word U c = true).
  { intros c p Hp Hc. rewrite forallb_forall in HU. apply HU.
    unfold ci_eq in Hc. apply orb_prop in Hc.
    simpl in Hp.
    repeat (destruct Hp as [<-|Hp];
            [destruct Hc as [Hc|Hc]; apply N.eqb_eq in Hc; subst c;
             simpl; tauto|]).
    destruct Hp. }
  assert (G : forall p w, (forall a, In a p -> In a (cps "andthen")) ->
                p <> [] -> ci_word p w = true ->
                w <> [] /\ word_first U w = true /\
                (forall prev, word_last U prev w = true)).
  { intros p. induction p as [|a p IH]; intros w0 Hp Hne Hc; [congruence|].
    unfold ci_word in Hc. simpl in Hc.
    destruct w0 as [|b w0]; [discriminate|].
    destruct (ci_eq b a) eqn:E; [|discriminate].
    assert (Hb : is_word U b = true) by (apply (L b a); auto; apply Hp; now left).
    split; [discriminate|]. split; [exact Hb|].
    intros prev. simpl.
    destruct p as [|a' p].
    - simpl in Hc. destruct w0; [exact Hb|discriminate].
    - destruct (strip_lit_ci (a' :: p) w0) as [[m r]|] eqn:S; [|discriminate].
      destruct r; [|discriminate].
      destruct (IH w0) as (_ & _ & Hl).
      + intros x Hx. apply Hp. now right.
      + discriminate.
      + unfold ci_word. now rewrite S.
      + apply Hl. }
  unfold is_connective in Hw. apply orb_prop in Hw. destruct Hw as [Hw|Hw].
  - apply (G (cps "and")); auto; [|discriminate].
    intros a Ha. simpl in Ha |- *. tauto.
  - apply (G (cps "then")); auto; [|discriminate].
    intros a Ha. simpl in Ha |- *. tauto.
Qed.

(** A connective between two word boundaries is matched where it
    starts. *)
Lemma match_connective_complete : forall U prev w r,
  is_connective w = true ->
  boundary U prev (w ++ r) = true ->
  boundary U (word_last U prev w) r = true ->
  match_connective U prev (w ++ r) = Some (w, r).
Proof.
  intros U prev w r Hw B1 B2. unfold is_connective in Hw.
  assert (G : forall p, ci_word p w = true ->
                strip_lit_ci p (w ++ r) = Some (w, r)).
  { intros p Hc. unfold ci_word in Hc.
    destruct (strip_lit_ci p w) as [[m r0]|] eqn:E; [|discriminate].
    destruct r0; [|discriminate].
    destruct (strip_lit_ci_spec _ _ _ _ E) as (Hm & _).
    rewrite app_nil_r in Hm. subst m.
    exact (strip_lit_ci_app _ _ _ _ r E). }
  unfold match_connective, match_word. rewrite B1.
  destruct (ci_word (cps "and") w) eqn:A.
  - rewrite (G _ A), B2. reflexivity.
  - simpl in Hw. rewrite (G _ Hw), B2.
    destruct (strip_lit_ci (cps "and") (w ++ r)) as [[m r0]|] eqn:E;
      [|reflexivity].
    exfalso.
    destruct (strip_lit_ci_spec _ _ _ _ E) as (_ & _ & Hl).
    destruct (strip_lit_ci_spec _ _ _ _ (G _ Hw)) as (_ & Hw' & Hl').
    destruct w as [|c w]; [discriminate|].
    simpl in E, Hw'. unfold ci_eq in E, Hw'. simpl in E, Hw'.
    destruct (N.eqb_spec c 116) as [->|]; [discriminate|].
    destruct (N.eqb_spec c 84) as [->|]; [discriminate|].
    discriminate.
Qed.

Lemma inert_space : forall U t, is_word U 32 = false -> inert U (32 :: t).
Proof.
  intros U t H. split; [exact H|].
  intros p Hp. simpl in Hp.
  repeat (destruct Hp as [<-|Hp]; [reflexivity|]). destruct Hp.
Qed.

(** The scan of " and " or " then " and what follows: a part that is one
    space, the connective, and the scan of the rest behind a space. *)
Lemma split_scan_separator : forall U w b n prev,
  is_word U 32 = false ->
  forallb (is_word U) (cps "andthenANDTHEN") = true ->
  is_connective w = true ->
  (List.length (32%N :: w ++ 32%N :: b) < n)%nat ->
  split_scan U n prev (32 :: w ++ 32 :: b) =
    ([32], (w, 32 :: fst (scan U b)) :: snd (scan U b)).
Proof.
  intros U w b n prev Hsp HU Hw Hn.
  destruct (connective_letters U w HU Hw) as (Hne & Hf & Hl).
  destruct n as [|n]; [inversion Hn|].
  cbn [split_scan]. rewrite match_connective_space by reflexivity.
  rewrite Hsp.
  assert (M : match_connective U false (w ++ 32 :: b) = Some (w, 32 :: b)).
  { apply match_connective_complete; [exact Hw| |].
    - unfold boundary. rewrite (word_first_app U w _ Hne), Hf. reflexivity.
    - unfold boundary. rewrite Hl. simpl. now rewrite Hsp. }
  simpl in Hn. rewrite length_app in Hn. simpl in Hn.
  destruct n as [|n]; [lia|].
  destruct w as [|c w']; [congruence|].
  change ((c :: w') ++ 32 :: b) with (c :: w' ++ 32 :: b) in M |- *.
  cbn [split_scan]. rewrite M. rewrite Hl.
  destruct n as [|n]; [simpl in Hn; lia|].
  cbn [split_scan]. rewrite match_connective_space by reflexivity.
  rewrite Hsp.
  rewrite (split_scan_fuel U n (S (List.length b)) false b)
    by (unfold str, codepoint in *; simpl in Hn; lia).
  unfold scan. unfold str, codepoint in *.
  destruct (split_scan U (S (List.length b)) false b) as [p rest].
  reflexivity.
Qed.

Lemma lstrip_app_space : forall p,
  lstrip (p ++ [32]) =
  match lstrip p with
  | [] => []
  | _ => lstrip p ++ [32]
  end.
Proof.
  induction p as [|c p IH]; simpl; [reflexivity|].
  destruct (is_space c); [exact IH|reflexivity].
Qed.

Lemma strip_space_after : forall p, strip (p ++ [32]) = strip p.
Proof.
  intros p. unfold strip. rewrite lstrip_app_space.
  destruct (lstrip p) as [|c z] eqn:E; [reflexivity|].
  unfold rstrip. rewrite rev_app_distr. reflexivity.
Qed.

Lemma parts_glue : forall (g : str -> str) q0 lt,
  (forall p, g (p ++ q0) = g p) ->
  forall rest p0,
  List.map g (fst (glue p0 rest (q0, lt)) ::
              List.map snd (snd (glue p0 rest (q0, lt)))) =
  List.map g (p0 :: List.map snd rest) ++ List.map g (List.map snd lt).
Proof.
  intros g q0 lt Hg rest. induction rest as [|[m p] rest IH]; intros p0.
  - cbn [glue fst snd List.map app]. now rewrite Hg.
  - cbn [glue fst snd List.map app]. f_equal. apply IH.
Qed.

Lemma for_each_app : forall (l1 l2 : list str) (body : str -> Cmd unit) tr,
  for_each (l1 ++ l2) body tr = (for_each l1 body ;; for_each l2 body) tr.
Proof.
  intros l1 l2 body. induction l1 as [|x l1 IH]; intros tr; simpl.
  - reflexivity.
  - unfold bind. destruct (body x tr) as [tr' [[]|e]].
    + rewrite IH. reflexivity.
    + reflexivity.
Qed.

(** The segments and the calls of two transcriptions joined by a
    connective between spaces. *)
Lemma execute_sequence : forall U host a w b tr,
  is_word U 32 = false ->
  forallb (is_word U) (cps "andthenANDTHEN") = true ->
  is_connective w = true ->
  segments U (a ++ [32] ++ w ++ [32] ++ b) = segments U a ++ segments U b /\
  execute U host (a ++ [32] ++ w ++ [32] ++ b) tr =
    (execute U host a ;; execute U host b) tr.
Proof.
  intros U host a w b tr Hsp HU Hw.
  assert (S : segments U (a ++ [32] ++ w ++ [32] ++ b) =
              segments U a ++ segments U b).
  { rewrite !segments_filter, <- filter_app. f_equal.
    unfold re_split at 1. unfold scan at 1 2.
    cbn [app].
    rewrite (split_scan_app U (32 :: w ++ 32 :: b)
               (S (List.length (32 :: w ++ 32 :: b))) (S (List.length a)))
      by (auto using inert_space; rewrite ?length_app; simpl; lia).
    rewrite (split_scan_separator U w b _ _ Hsp HU Hw) by lia.
    fold (scan U a).
    rewrite (parts_glue (fun part => lower U (strip part)) [32]);
      [|intros p; now rewrite strip_space_after].
    f_equal; reflexivity. }
  split; [exact S|].
  rewrite execute_segments, S, for_each_app. unfold bind.
  rewrite <- execute_segments.
  destruct (execute U host a tr) as [tr' [[]|e]]; [|reflexivity].
  now rewrite execute_segments.
Qed.

(** X9: a connective between two spaces puts two transcriptions in
    sequence: the segments of [a + " and " + b] are those of [a]
    followed by those of [b], and [execute] on it does what [execute]
    does on [a] and then, unless that raised, on [b]; the same holds of
    "then" and of any letter case.  It holds for the character tables in
    which the space is not a word character and the letters of the
    connectives are. *)
Theorem connective_runs_in_sequence : forall U host a w b tr,
  is_word U 32 = false ->
  forallb (is_word U) (cps "andthenANDTHEN") = true ->
  is_connective w = true ->
  segments U (a ++ [32] ++ w ++ [32] ++ b) = segments U a ++ segments U b /\
  execute U host (a ++ [32] ++ w ++ [32] ++ b) tr =
    (execute U host a ;; execute U host b) tr.
Proof. exact execute_sequence. Qed.

Lemma connective_runs_in_sequence_witness :
  execute py_ucd (quiet_host "linux" false)
    (cps "open youtube" ++ [32] ++ cps "Then" ++ [32] ++ cps "find cats") [] =
  (execute py_ucd (quiet_host "linux" false) (cps "open youtube") ;;
   execute py_ucd (quiet_host "linux" false) (cps "find cats")) [].
Proof.
  apply (proj2 (connective_runs_in_sequence py_ucd (quiet_host "linux" false)
                  (cps "open youtube") (cps "Then") (cps "find cats") []
                  eq_refl eq_refl eq_refl)).
Defined.

Lemma join_space_app : forall args1 args2,
  args1 <> [] -> args2 <> [] ->
  join_space (args1 ++ args2) = join_space args1 ++ [32] ++ join_space args2.
Proof.
  induction args1 as [|a args1 IH]; intros args2 H1 H2; [congruence|].
  destruct args1 as [|a' args1].
  - destruct args2; [congruence|reflexivity].
  - change (join_space ((a :: a' :: args1) ++ args2))
      with (a ++ [32] ++ join_space ((a' :: args1) ++ args2)).
    rewrite IH by (auto; discriminate).
    change (join_space (a :: a' :: args1))
      with (a ++ [32] ++ join_space (a' :: args1)).
    now rewrite <- !app_assoc.
Qed.

(** X10: the script does nothing when it is given no argument;
    otherwise it runs the arguments joined by single spaces, so that a
    connective given as an argument of its own, between other
    arguments, puts what stands before it and what stands behind it in
    sequence. *)
Theorem script_runs_its_arguments : forall U host prog args1 w args2 tr,
  is_word U 32 = false ->
  forallb (is_word U) (cps "andthenANDTHEN") = true ->
  is_connective w = true ->
  args1 <> [] -> args2 <> [] ->
  main U host [] tr = (tr, Ret tt) /\
  main U host [prog] tr = (tr, Ret tt) /\
  main U host (prog :: args1) tr = execute U host (join_space args1) tr /\
  main U host (prog :: args1 ++ w :: args2) tr =
    (main U host (prog :: args1) ;; main U host (prog :: args2)) tr.
Proof.
  intros U host prog args1 w args2 tr Hsp HU Hw H1 H2.
  assert (M : forall args, args <> [] ->
                main U host (prog :: args) = execute U host (join_space args)).
  { intros [|x args] H; [congruence|reflexivity]. }
  split; [reflexivity|]. split; [reflexivity|].
  split; [now rewrite M|].
  rewrite !M by (auto; destruct args1; discriminate).
  rewrite (join_space_app args1 (w :: args2) H1) by discriminate.
  destruct args2 as [|x args2]; [congruence|].
  change (join_space (w :: x :: args2))
    with (w ++ [32] ++ join_space (x :: args2)).
  exact (proj2 (execute_sequence U host _ w _ tr Hsp HU Hw)).
Qed.

Lemma script_runs_its_arguments_witness :
  main py_ucd (quiet_host "linux" false)
    [cps "silent_commander.py"; cps "open"; cps "github"; cps "and";
     cps "search"; cps "rocq"] [] =
  (main py_ucd (quiet_host "linux" false)
     [cps "silent_commander.py"; cps "open"; cps "github"] ;;
   main py_ucd (quiet_host "linux" false)
     [cps "silent_commander.py"; cps "search"; cps "rocq"]) [].
Proof.
  apply (proj2 (proj2 (proj2
    (script_runs_its_arguments py_ucd (quiet_host "linux" false)
       (cps "silent_commander.py") [cps "open"; cps "github"] (cps "and")
       [cps "search"; cps "rocq"] [] eq_refl eq_refl eq_refl
       (fun H => @eq_ind (list str) [cps "open"; cps "github"]
                   (fun l => match l with [] => False | _ => True end)
                   I [] H)
       (fun H => @eq_ind (list str) [cps "search"; cps "rocq"]
                   (fun l => match l with [] => False | _ => True end)
                   I [] H))))).
Defined.

(** ** Every whole word splits *)

Lemma ci_word_all_word : forall U p w,
  forallb (is_word U) (cps "andthenANDTHEN") = true ->
  (forall a, In a p -> In a (cps "andthen")) ->
  forall m r, strip_lit_ci p w = Some (m, r) ->
  Forall (fun c => is_word U c = true) m.
Proof.
  intros U p w HU. revert w. induction p as [|a p IH]; intros w Hp m r H;
    simpl in H.
  - inversion H. constructor.
  - destruct w as [|b w]; [discriminate|].
    destruct (ci_eq b a) eqn:E; [|discriminate].
    destruct (strip_lit_ci p w) as [[m' r']|] eqn:S; [|discriminate].
    inversion H. subst. constructor.
    + rewrite forallb_forall in HU. apply HU.
      assert (Ha : In a (cps "andthen")) by (apply Hp; now left).
      unfold ci_eq in E. apply orb_prop in E. simpl in Ha.
      repeat (destruct Ha as [<-|Ha];
              [destruct E as [E|E]; apply N.eqb_eq in E; subst b;
               simpl; tauto|]).
      destruct Ha.
    + apply (IH w) with (r := r); [|exact S].
      intros x Hx. apply Hp. now right.
Qed.

Lemma connective_all_word : forall U w,
  forallb (is_word U) (cps "andthenANDTHEN") = true ->
  is_connective w = true ->
  Forall (fun c => is_word U c = true) w.
Proof.
  intros U w HU Hw. unfold is_connective, ci_word in Hw.
  apply orb_prop in Hw. destruct Hw as [Hw|Hw].
  - destruct (strip_lit_ci (cps "and") w) as [[m r]|] eqn:E; [|discriminate].
    destruct r; [|discriminate].
    destruct (strip_lit_ci_spec _ _ _ _ E) as (Hm & _).
    rewrite app_nil_r in Hm. subst m.
    apply (ci_word_all_word U (cps "and") w HU) with (r := []); [|exact E].
    intros a Ha. simpl in Ha |- *. tauto.
  - destruct (strip_lit_ci (cps "then") w) as [[m r]|] eqn:E; [|discriminate].
    destruct r; [|discriminate].
    destruct (strip_lit_ci_spec _ _ _ _ E) as (Hm & _).
    rewrite app_nil_r in Hm. subst m.
    apply (ci_word_all_word U (cps "then") w HU) with (r := []); [|exact E].
    intros a Ha. simpl in Ha |- *. tauto.
Qed.

Lemma word_last_all_word : forall U l prev,
  l <> [] -> Forall (fun c => is_word U c = true) l ->
  word_last U prev l = true.
Proof.
  intros U l. induction l as [|c l IH]; intros prev Hne H; [congruence|].
  inversion H. subst. simpl. destruct l as [|c' l].
  - assumption.
  - apply IH; [discriminate|assumption].
Qed.

Lemma split_scan_complete : forall U n prev l w r,
  forallb (is_word U) (cps "andthenANDTHEN") = true ->
  (List.length (l ++ w ++ r) < n)%nat ->
  is_connective w = true ->
  xorb (word_last U prev l) (word_first U (w ++ r)) = true ->
  xorb (word_last U prev (l ++ w)) (word_first U r) = true ->
  exists pre p post,
    snd (split_scan U n prev (l ++ w ++ r)) = pre ++ (w, p) :: post /\
    join (fst (split_scan U n prev (l ++ w ++ r))) pre = l.
Proof.
  intros U n. induction n as [|n IH]; intros prev l w r HU Hn Hw B1 B2; [lia|].
  destruct (connective_letters U w HU Hw) as (Hne & Hf & Hl).
  destruct l as [|c l'].
  - cbn [app] in *. destruct w as [|cw w']; [congruence|].
    assert (M : match_connective U prev ((cw :: w') ++ r) = Some (cw :: w', r)).
    { apply match_connective_complete; [exact Hw|exact B1|exact B2]. }
    cbn [app] in M |- *. cbn [split_scan]. rewrite M.
    destruct (split_scan U n (word_last U prev (cw :: w')) r) as [p rest].
    exists [], p, rest. split; reflexivity.
  - cbn [app split_scan].
    destruct (match_connective U prev (c :: l' ++ w ++ r)) as [[m0 r0]|] eqn:M.
    + destruct (match_connective_spec _ _ _ _ _ M) as (Hs & Hc & Hlen & _ & _).
      change (c :: l' ++ w ++ r) with ((c :: l') ++ w ++ r) in Hs.
      symmetry in Hs. apply app_eq_app in Hs.
      destruct Hs as [k [[Hm Hr]|[Hm Hr]]].
      * exfalso.
        pose proof (connective_all_word U m0 HU Hc) as Hall.
        rewrite Hm in Hall. apply Forall_app in Hall.
        rewrite (word_last_all_word U (c :: l') prev) in B1;
          [|discriminate|exact (proj1 Hall)].
        rewrite (word_first_app U w r Hne), Hf in B1. discriminate.
      * assert (Hn' : (List.length (k ++ w ++ r) < n)%nat).
        { apply (f_equal (@List.length _)) in Hm.
          rewrite length_app in Hm. simpl in Hm, Hn.
          rewrite !length_app in Hn |- *.
          unfold str, codepoint in *. lia. }
        rewrite Hm, word_last_app in B1.
        rewrite Hm, <- app_assoc, word_last_app in B2.
        destruct (IH (word_last U prev m0) k w r HU Hn' Hw B1 B2)
          as (pre & p & post & E & J).
        rewrite Hr.
        destruct (split_scan U n (word_last U prev m0) (k ++ w ++ r))
          as [p0 rest].
        cbn [fst snd] in E, J |- *.
        exists ((m0, p0) :: pre), p, post. split.
        -- rewrite E. reflexivity.
        -- rewrite join_sep, J. now symmetry.
    + assert (Hn' : (List.length (l' ++ w ++ r) < n)%nat)
        by (simpl in Hn; lia).
      simpl word_last in B1, B2.
      destruct (IH (is_word U c) l' w r HU Hn' Hw B1 B2)
        as (pre & p & post & E & J).
      destruct (split_scan U n (is_word U c) (l' ++ w ++ r)) as [p0 rest].
      cbn [fst snd] in E, J |- *.
      exists pre, p, post. split; [exact E|].
      rewrite join_cons, J. reflexivity.
Qed.

(** X11: every "and" and "then" that stands as a whole word is taken out
    by the splitter, whatever stands around it: when the transcription
    is [l ++ w ++ r] with a connective [w] in any letter case between
    two word boundaries, [w] is one of the separators of the split and
    what the split has before it, put together, is [l].  With the
    soundness of the split this says that the separators are exactly the
    whole-word connectives.  It holds for the character tables in which
    the letters of the connectives are word characters. *)
Theorem every_whole_word_connective_splits : forall U T l w r,
  forallb (is_word U) (cps "andthenANDTHEN") = true ->
  T = l ++ w ++ r ->
  is_connective w = true ->
  word_boundary U l (w ++ r) = true ->
  word_boundary U (l ++ w) r = true ->
  exists pre p post,
    snd (scan U T) = pre ++ (w, p) :: post /\
    join (fst (scan U T)) pre = l /\
    join p post = r /\
    List.nth_error (re_split U T) (S (List.length pre)) = Some p.
Proof.
  intros U T l w r HU -> Hw B1 B2. unfold scan.
  destruct (split_scan_complete U (S (List.length (l ++ w ++ r))) false l w r
              HU (Nat.lt_succ_diag_r _) Hw B1 B2) as (pre & p & post & E & J).
  exists pre, p, post. split; [exact E|]. split; [exact J|].
  destruct (scan_sound U (l ++ w ++ r)) as [Jall _].
  unfold scan in Jall. rewrite E, join_app, J in Jall.
  split.
  - apply app_inv_head in Jall. apply app_inv_head in Jall. exact Jall.
  - unfold re_split, scan. rewrite E. cbn [nth_error].
    rewrite map_app. cbn [List.map snd].
    rewrite nth_error_app2 by (rewrite length_map; lia).
    rewrite length_map, Nat.sub_diag. reflexivity.
Qed.

Lemma every_whole_word_connective_splits_witness :
  exists pre p post,
    snd (scan py_ucd fish_and_chips) = pre ++ (cps "and", p) :: post /\
    join (fst (scan py_ucd fish_and_chips)) pre =
      cps "search for " ++ [34] ++ cps "fish " /\
    join p post = cps " chips" ++ [34] /\
    List.nth_error (re_split py_ucd fish_and_chips) (S (List.length pre)) =
      Some p.
Proof.
  apply (every_whole_word_connective_splits py_ucd fish_and_chips
           (cps "search for " ++ [34] ++ cps "fish ") (cps "and")
           (cps " chips" ++ [34]) eq_refl eq_refl eq_refl eq_refl eq_refl).
Defined.

(** ** Segments are trimmed and in lower case *)

Lemma lstrip_fixed_head : forall s,
  lstrip s = s <-> match s with [] => True | c :: _ => is_space c = false end.
Proof.
  intros [|c s]; simpl; [tauto|].
  destruct (is_space c) eqn:E; split; intros H; try reflexivity;
    try discriminate.
  pose proof (lstrip_length s) as L. rewrite H in L. simpl in L. lia.
Qed.

Lemma lstrip_lstrip : forall s, lstrip (lstrip s) = lstrip s.
Proof.
  intros s. apply lstrip_fixed_head.
  destruct (lstrip s) as [|c z] eqn:E; [exact I|].
  exact (lstrip_head _ _ _ E).
Qed.

Lemma strip_of_fixed : forall s,
  lstrip s = s -> lstrip (rev s) = rev s -> strip s = s.
Proof.
  intros s L R. unfold strip, rstrip. rewrite L, R. apply rev_involutive.
Qed.

Lemma strip_strip : forall s, strip (strip s) = strip s.
Proof.
  intros s. apply strip_of_fixed.
  - unfold strip, rstrip. apply lstrip_fixed_head.
    destruct (lstrip s) as [|c y] eqn:Y; [exact I|].
    pose proof (lstrip_head _ _ _ Y) as Hc.
    destruct (lstrip_suffix (rev (c :: y))) as [pre E].
    apply (f_equal (@rev _)) in E.
    rewrite rev_involutive, rev_app_distr in E.
    destruct (rev (lstrip (rev (c :: y)))) as [|a z]; [exact I|].
    simpl in E. inversion E. now subst.
  - unfold strip, rstrip. rewrite rev_involutive. apply lstrip_lstrip.
Qed.

Lemma lower_table : forallb lower_check table_points = true.
Proof. vm_compute. reflexivity. Qed.

Lemma lower_char_facts : forall c,
  in_tables c = true ->
  py_lower_char c <> [] /\
  (forall x, In x (py_lower_char c) -> is_space x = is_space c) /\
  (forall x, In x (py_lower_char c) -> in_tables x = true) /\
  flat_map py_lower_char (py_lower_char c) = py_lower_char c.
Proof.
  intros c H.
  pose proof (proj1 (forallb_forall _ _) lower_table c (in_tables_points c H))
    as K.
  unfold lower_check in K. rewrite H in K. cbn [implb] in K.
  repeat (apply andb_prop in K; destruct K as [K ?]).
  split; [|split; [|split]].
  - destruct (py_lower_char c); [discriminate|discriminate].
  - intros x Hx. apply eqb_prop.
    match goal with
    | F : forallb (fun _ => Bool.eqb _ _) _ = true |- _ =>
        exact (proj1 (forallb_forall _ _) F x Hx)
    end.
  - intros x Hx.
    match goal with
    | F : forallb in_tables _ = true |- _ =>
        exact (proj1 (forallb_forall _ _) F x Hx)
    end.
  - now apply str_eqb_eq.
Qed.

Lemma lower_lower : forall s,
  all_in in_tables s -> lower py_ucd (lower py_ucd s) = lower py_ucd s.
Proof.
  intros s H. simpl. induction H as [|c s Hc Hs IH]; simpl; [reflexivity|].
  rewrite flat_map_app, IH.
  now rewrite (proj2 (proj2 (proj2 (lower_char_facts c Hc)))).
Qed.

Lemma lstrip_lower : forall s,
  all_in in_tables s -> lstrip s = s ->
  lstrip (lower py_ucd s) = lower py_ucd s.
Proof.
  intros s H L. apply lstrip_fixed_head. apply lstrip_fixed_head in L.
  destruct s as [|c s]; [exact I|]. inversion H. subst.
  destruct (lower_char_facts c H2) as (Hne & Hsp & _).
  simpl. destruct (py_lower_char c) as [|x l]; [congruence|].
  simpl. rewrite (Hsp x) by now left. exact L.
Qed.

Lemma rev_lower_head : forall s,
  all_in in_tables s -> lstrip (rev s) = rev s ->
  lstrip (rev (lower py_ucd s)) = rev (lower py_ucd s).
Proof.
  intros s H R. apply lstrip_fixed_head. apply lstrip_fixed_head in R.
  destruct (rev s) as [|c y] eqn:E.
  - apply (f_equal (@rev _)) in E. rewrite rev_involutive in E. now subst.
  - apply (f_equal (@rev _)) in E. rewrite rev_involutive in E. simpl in E.
    subst s. apply Forall_app in H. destruct H as [_ Hc].
    inversion Hc. subst.
    destruct (lower_char_facts c H1) as (Hne & Hsp & _).
    simpl. rewrite flat_map_app, rev_app_distr. simpl. rewrite app_nil_r.
    destruct (rev (py_lower_char c)) as [|x l] eqn:X.
    + apply (f_equal (@rev _)) in X. rewrite rev_involutive in X.
      simpl in X. congruence.
    + simpl. rewrite (Hsp x); [exact R|].
      apply in_rev. rewrite X. now left.
Qed.

(** X12: what reaches [_dispatch] is a segment as the design has it.
    For a transcription over the code points of the tables, every
    segment is non-empty, trimmed (no white space at either end) and in
    lower case ([str.lower] leaves it as it is); so every segment that
    starts with "search" or "find" and holds no surrogate sends exactly
    one query to the browser. *)
Theorem segments_are_normalised : forall host T seg tr,
  forallb in_tables T = true ->
  In seg (segments py_ucd T) ->
  seg <> [] /\ strip seg = seg /\ lower py_ucd seg = seg /\
  (startswith seg (cps "search") || startswith seg (cps "find") = true ->
   existsb is_surrogate seg = false ->
   exists q,
     _dispatch host seg tr =
       (tr ++ [open_new_tab (cps "https://www.google.com/search?q=" ++ q)],
        Ret tt)).
Proof.
  intros host T seg tr HT Hin.
  assert (Hall : all_in in_tables T).
  { apply Forall_forall. exact (proj1 (forallb_forall _ _) HT). }
  assert (Hne : seg <> []).
  { pose proof (segments_nonempty py_ucd T) as F.
    rewrite Forall_forall in F. exact (F seg Hin). }
  rewrite segments_filter in Hin. apply filter_In in Hin.
  destruct Hin as [Hin _]. apply in_map_iff in Hin.
  destruct Hin as (part & Hseg & Hpart).
  assert (Hp : all_in in_tables part).
  { pose proof (ok_re_split py_ucd in_tables T Hall) as F.
    rewrite Forall_forall in F. exact (F part Hpart). }
  pose proof (ok_strip in_tables part Hp) as Hs.
  destruct (strip_fixed _ (strip_strip part)) as [L R].
  assert (Htrim : strip seg = seg).
  { subst seg. apply strip_of_fixed.
    - exact (lstrip_lower _ Hs L).
    - exact (rev_lower_head _ Hs R). }
  split; [exact Hne|]. split; [exact Htrim|]. split.
  - subst seg. exact (lower_lower _ Hs).
  - intros Hverb Hsur.
    destruct (trimmed_search_run host seg tr Hverb Htrim) as (_ & H & _).
    destruct (H Hsur) as (q & _ & D). exists q. exact D.
Qed.

Lemma segments_are_normalised_witness :
  strip (cps "find  cats") = cps "find  cats" /\
  lower py_ucd (cps "find  cats") = cps "find  cats".
Proof.
  destruct (segments_are_normalised (quiet_host "linux" false)
              (cps "open GitHub and   Find  Cats  ") (cps "find  cats") []
              eq_refl (or_intror (or_introl eq_refl))) as (_ & A & B & _).
  split; assumption.
Defined.

(** ** The tables have no dead entry *)

(** X13: every site of the directory is reached by its own name: for
    each of the fourteen entries, "open" followed by the name opens the
    URL of that entry, so that no name is shadowed by an earlier one and
    none is taken for a settings target. *)
Theorem every_site_opens_by_name : forall host key url tr,
  In (key, url) site_whitelist ->
  classify (cps "open " ++ key) = OpenSite url /\
  _dispatch host (cps "open " ++ key) tr = (tr ++ [open_new_tab url], Ret tt).
Proof.
  intros host key url tr Hin.
  assert (K : classify (cps "open " ++ key) = OpenSite url).
  { simpl in Hin.
    repeat (destruct Hin as [Hin|Hin];
            [inversion Hin; subst; vm_compute; reflexivity|]).
    destruct Hin. }
  split; [exact K|]. rewrite dispatch_run, K. reflexivity.
Qed.

Lemma every_site_opens_by_name_witness :
  _dispatch (quiet_host "linux" false) (cps "open " ++ cps "news") [] =
    ([open_new_tab (cps "https://news.google.com")], Ret tt).
Proof.
  refine (proj2 (every_site_opens_by_name (quiet_host "linux" false)
                   (cps "news") (cps "https://news.google.com") [] _)).
  repeat (try (left; reflexivity); right).
Defined.

(** X14: every keyword of every settings rule selects the result of its
    own rule: on Windows, macOS and Linux alike, a target that is one of
    the keywords resolves to the URI or the panel written beside it, so
    that no rule is shadowed by a rule above it. *)
Theorem every_keyword_selects_its_rule : forall k,
  (forall uri, In (k, uri) (rule_keywords win_rules) -> win_uri k = uri) /\
  (forall pane, In (k, pane) (rule_keywords mac_rules) ->
     mac_uri k = cps "x-apple.systempreferences:" ++ pane) /\
  (forall panel, In (k, panel) (rule_keywords linux_rules) ->
     linux_cmd k = cps "gnome-control-center" :: panel).
Proof.
  intros k. split; [|split].
  - intros uri Hin. vm_compute in Hin.
    repeat (destruct Hin as [Hin|Hin];
            [inversion Hin; subst; vm_compute; reflexivity|]).
    destruct Hin.
  - intros pane Hin. vm_compute in Hin.
    repeat (destruct Hin as [Hin|Hin];
            [inversion Hin; subst; vm_compute; reflexivity|]).
    destruct Hin.
  - intros panel Hin. vm_compute in Hin.
    repeat (destruct Hin as [Hin|Hin];
            [inversion Hin; subst; vm_compute; reflexivity|]).
    destruct Hin.
Qed.

Lemma every_keyword_selects_its_rule_witness :
  win_uri (cps "battery") = cps "ms-settings:powersleep".
Proof.
  apply (proj1 (every_keyword_selects_its_rule (cps "battery"))).
  unfold rule_keywords, win_rules. simpl.
  repeat (try (left; reflexivity); right).
Defined.

(** ** White space around a transcription *)

Lemma is_space_points : forall c, is_space c = true -> In c space_points.
Proof.
  intros c H. unfold is_space in H. unfold space_points.
  repeat (rewrite ?orb_true_iff, ?andb_true_iff in H).
  rewrite !N.leb_le, !N.eqb_eq in H. rewrite !in_app_iff.
  destruct H as [[[[[[[[[[[H1 H2]|[H1 H2]]|H]|H]|H]|[H1 H2]]|H]|H]|H]|H]|H].
  - left. apply range_In; lia.
  - right. left. apply range_In; lia.
  - subst. right. right. left. simpl. tauto.
  - subst. right. right. left. simpl. tauto.
  - subst. right. right. left. simpl. tauto.
  - right. right. right. left. apply range_In; lia.
  - subst. right. right. right. right. simpl. tauto.
  - subst. right. right. right. right. simpl. tauto.
  - subst. right. right. right. right. simpl. tauto.
  - subst. right. right. right. right. simpl. tauto.
  - subst. right. right. right. right. simpl. tauto.
Qed.

Lemma space_inert : forall U c t,
  forallb (fun x => negb (is_word U x)) space_points = true ->
  is_space c = true -> inert U (c :: t).
Proof.
  intros U c t HU Hc. pose proof (is_space_points c Hc) as Hin. split.
  - rewrite forallb_forall in HU. specialize (HU c Hin).
    now apply negb_true_iff in HU.
  - intros p Hp.
    assert (F : forallb (fun x => forallb (fun q => negb (ci_eq x q))
                                    (cps "andthen")) space_points = true)
      by (vm_compute; reflexivity).
    rewrite forallb_forall in F. specialize (F c Hin).
    rewrite forallb_forall in F. specialize (F p Hp).
    now apply negb_true_iff in F.
Qed.

Lemma split_scan_leading_spaces : forall U ws n prev s,
  forallb (fun x => negb (is_word U x)) space_points = true ->
  forallb is_space ws = true ->
  (List.length (ws ++ s) < n)%nat ->
  split_scan U n prev (ws ++ s) =
    (ws ++ fst (split_scan U n (word_last U prev ws) s),
     snd (split_scan U n (word_last U prev ws) s)).
Proof.
  intros U ws. induction ws as [|c ws IH]; intros n prev s HU Hws Hn.
  - simpl. now destruct (split_scan U n prev s).
  - simpl in Hws. apply andb_prop in Hws. destruct Hws as [Hc Hws].
    destruct n as [|n]; [inversion Hn|].
    cbn [app split_scan]. rewrite (match_connective_space U prev c _ Hc).
    simpl in Hn.
    rewrite (IH n (is_word U c) s HU Hws) by lia.
    cbn [fst snd word_last].
    rewrite (split_scan_fuel U n (S n) (word_last U (is_word U c) ws) s).
    + reflexivity.
    + rewrite length_app in Hn. lia.
    + rewrite length_app in Hn. lia.
Qed.

Lemma word_last_spaces : forall U ws,
  forallb (fun x => negb (is_word U x)) space_points = true ->
  forallb is_space ws = true ->
  word_last U false ws = false.
Proof.
  intros U ws HU. assert (G : forall prev, prev = false ->
    forallb is_space ws = true -> word_last U prev ws = false).
  { induction ws as [|c ws IH]; intros prev Hp H; simpl; [exact Hp|].
    simpl in H. apply andb_prop in H. destruct H as [Hc Hws].
    apply IH; [|exact Hws].
    exact (proj1 (space_inert U c [] HU Hc)). }
  now apply G.
Qed.

Lemma lstrip_leading_spaces : forall ws p,
  forallb is_space ws = true -> lstrip (ws ++ p) = lstrip p.
Proof.
  induction ws as [|c ws IH]; intros p H; simpl; [reflexivity|].
  simpl in H. apply andb_prop in H. destruct H as [-> Hws]. now apply IH.
Qed.

Lemma strip_leading_spaces : forall ws p,
  forallb is_space ws = true -> strip (ws ++ p) = strip p.
Proof. intros ws p H. unfold strip. now rewrite lstrip_leading_spaces. Qed.

Lemma lstrip_app_one : forall c p,
  is_space c = true ->
  lstrip (p ++ [c]) =
  match lstrip p with
  | [] => []
  | _ => lstrip p ++ [c]
  end.
Proof.
  intros c p Hc. induction p as [|a p IH]; simpl.
  - now rewrite Hc.
  - destruct (is_space a); [exact IH|reflexivity].
Qed.

Lemma strip_trailing_spaces : forall ws p,
  forallb is_space ws = true -> strip (p ++ ws) = strip p.
Proof.
  induction ws as [|c ws IH]; intros p H.
  - now rewrite app_nil_r.
  - simpl in H. apply andb_prop in H. destruct H as [Hc Hws].
    change (p ++ c :: ws) with (p ++ [c] ++ ws).
    rewrite app_assoc, (IH _ Hws).
    unfold strip. rewrite (lstrip_app_one c p Hc).
    destruct (lstrip p) as [|a z] eqn:E; [reflexivity|].
    unfold rstrip. rewrite rev_app_distr. simpl. now rewrite Hc.
Qed.

(** X15: white space around a transcription changes nothing: with any
    white space before it and after it, a transcription has the same
    segments and [execute] does the same.  It holds for the character
    tables in which no white space is a word character. *)
Theorem surrounding_space_is_ignored : forall U host ws1 T ws2 tr,
  forallb (fun x => negb (is_word U x)) space_points = true ->
  forallb is_space ws1 = true ->
  forallb is_space ws2 = true ->
  segments U (ws1 ++ T ++ ws2) = segments U T /\
  execute U host (ws1 ++ T ++ ws2) tr = execute U host T tr.
Proof.
  intros U host ws1 T ws2 tr HU H1 H2.
  assert (S : segments U (ws1 ++ T ++ ws2) = segments U T).
  { rewrite !segments_filter. f_equal.
    unfold re_split. unfold scan at 1 2.
    rewrite (split_scan_leading_spaces U ws1 _ false (T ++ ws2) HU H1)
      by lia.
    rewrite (word_last_spaces U ws1 HU H1). cbn [fst snd].
    assert (I : inert U ws2).
    { destruct ws2 as [|c ws2]; [exact I|].
      simpl in H2. apply andb_prop in H2.
      exact (space_inert U c ws2 HU (proj1 H2)). }
    rewrite (split_scan_app U ws2 (S (List.length ws2)) (S (List.length T)))
      by (auto; rewrite ?length_app; lia).
    rewrite (split_scan_spaces U _ _ ws2 H2).
    fold (scan U T).
    pose proof (parts_glue (fun part => lower U (strip part)) ws2 []
                  (fun p => f_equal (lower U) (strip_trailing_spaces ws2 p H2))
                  (snd (scan U T))) as G.
    cbn [List.map] in G |- *.
    specialize (G (fst (scan U T))). rewrite app_nil_r in G.
    injection G as Gh Gt.
    rewrite Gt. f_equal.
    rewrite strip_leading_spaces by exact H1. exact Gh. }
  split; [exact S|]. now rewrite !execute_segments, S.
Qed.

Lemma surrounding_space_is_ignored_witness :
  execute py_ucd (quiet_host "linux" false)
    ([32; 9] ++ cps "open reddit then find cats" ++ [10; 160]) [] =
  execute py_ucd (quiet_host "linux" false)
    (cps "open reddit then find cats") [].
Proof.
  apply (proj2 (surrounding_space_is_ignored py_ucd (quiet_host "linux" false)
                  [32; 9] (cps "open reddit then find cats") [10; 160] []
                  eq_refl eq_refl eq_refl)).
Defined.
